(** * The atomic transaction repository of coreth (plugin/evm/atomic_tx_repository.go)

    A shallow embedding of the repository that indexes accepted atomic
    transactions by identifier and by height on top of a versioned
    key-value store, together with the one-time migration run by its
    constructor, and the properties of its specification. *)

From Stdlib Require Import ZArith Lia List.
From Stdlib Require Import Strings.Byte Strings.String.
From stdpp Require Import base option list gmap sorting.
From Equations Require Import Equations.

Local Open Scope Z_scope.

(** ** Bytes and byte strings *)

Abbreviation byte := Byte.byte.
Abbreviation bytes := (list Byte.byte).

#[global] Instance byte_eq_dec : EqDecision byte := Byte.byte_eq_dec.

#[global] Instance byte_countable : Countable byte :=
  inj_countable Byte.to_N Byte.of_N Byte.of_to_N.

(** Go's conversion [byte(v)] of an unsigned integer keeps the low 8 bits. *)
Definition byte_of_Z (v : Z) : byte :=
  default Byte.x00 (Byte.of_N (Z.to_N (Z.land v 255))).

(** Go's conversion [uint64(b)] of a byte. *)
Definition Z_of_byte (b : byte) : Z := Z.of_N (Byte.to_N b).

(** [make([]byte, n)]: a zeroed slice. *)
Definition make (n : nat) : bytes := replicate n Byte.x00.

(** Lexicographic order on byte strings, the key order of the store. *)
Fixpoint bytes_le (a b : bytes) : bool :=
  match a, b with
  | [], _ => true
  | _ :: _, [] => false
  | x :: a', y :: b' =>
      if decide (x = y) then bytes_le a' b'
      else bool_decide (Byte.to_N x < Byte.to_N y)%N
  end.

(** Sizes of the wrappers package. *)
Definition LongLen : nat := 8.
Definition IntLen : nat := 4.
(** [common.HashLength], the width of an identifier. *)
Definition HashLength : nat := 32.

(** ** encoding/binary, big endian *)

(** [binary.BigEndian.PutUint64(b, v)] on a slice [b] of 8 bytes. *)
Definition PutUint64 (v : Z) : bytes :=
  [ byte_of_Z (Z.shiftr v 56); byte_of_Z (Z.shiftr v 48);
    byte_of_Z (Z.shiftr v 40); byte_of_Z (Z.shiftr v 32);
    byte_of_Z (Z.shiftr v 24); byte_of_Z (Z.shiftr v 16);
    byte_of_Z (Z.shiftr v 8); byte_of_Z v ].

(** [binary.BigEndian.PutUint32(b, v)] on a slice [b] of 4 bytes. *)
Definition PutUint32 (v : Z) : bytes :=
  [ byte_of_Z (Z.shiftr v 24); byte_of_Z (Z.shiftr v 16);
    byte_of_Z (Z.shiftr v 8); byte_of_Z v ].

(** [binary.BigEndian.Uint64(b)]; Go panics when [b] has fewer than 8
    bytes, which is [None] here. *)
Definition Uint64 (b : bytes) : option Z :=
  match b with
  | b0 :: b1 :: b2 :: b3 :: b4 :: b5 :: b6 :: b7 :: _ =>
      Some (Z.lor (Z_of_byte b7)
           (Z.lor (Z.shiftl (Z_of_byte b6) 8)
           (Z.lor (Z.shiftl (Z_of_byte b5) 16)
           (Z.lor (Z.shiftl (Z_of_byte b4) 24)
           (Z.lor (Z.shiftl (Z_of_byte b3) 32)
           (Z.lor (Z.shiftl (Z_of_byte b2) 40)
           (Z.lor (Z.shiftl (Z_of_byte b1) 48)
                  (Z.shiftl (Z_of_byte b0) 56))))))))
  | _ => None
  end.

(** [binary.BigEndian.Uint32(b)]. *)
Definition Uint32 (b : bytes) : option Z :=
  match b with
  | b0 :: b1 :: b2 :: b3 :: _ =>
      Some (Z.lor (Z_of_byte b3)
           (Z.lor (Z.shiftl (Z_of_byte b2) 8)
           (Z.lor (Z.shiftl (Z_of_byte b1) 16)
                  (Z.shiftl (Z_of_byte b0) 24))))
  | _ => None
  end.

(** ** Errors *)

(** The error values that occur.  Store, codec and packer errors come
    from the collaborators; the last three are built by the repository
    itself with [fmt.Errorf]. *)
Inductive error : Type :=
| ErrNotFound                      (* database.ErrNotFound *)
| ErrClosed                        (* database.ErrClosed *)
| ErrStore (msg : string)          (* any other failure of the store *)
| ErrCodec (msg : string)          (* a failure of the codec *)
| ErrBadLength                     (* the packer ran out of bytes *)
| ErrInvalidIndexHeight (v : bytes)
    (* "found invalid value at max indexed height: %v" *)
| ErrIterator (e : error)
    (* "atomic tx DB iterator errored while initializing atomic trie: %w" *)
| ErrEntryTooShort (n : nat)
    (* "acceptedAtomicTxDB entry too short: %d" *).

#[global] Instance error_eq_dec : EqDecision error.
Proof. solve_decision. Defined.

(** What a call does: it returns a value, returns an error, or panics
    (a slice expression out of range). *)
Inductive result (A : Type) : Type :=
| Ok (a : A)
| Err (e : error)
| Panic.
Arguments Ok {A} a.
Arguments Err {A} e.
Arguments Panic {A}.

(** ** wrappers.Packer *)

(** Modelled from the spec: the packer of the wrappers package is not
    among the sources; this is the layout of the by-ID record of the
    specification ([height:uint64-big-endian] followed by the
    length-prefixed payload, the length being a big-endian [uint32]),
    written and read through a cursor over a byte slice that records the
    first failure in [PErr] and makes every later call a no-op. *)
Module Packer.

Record t : Type := mk {
  PErr : option error;
  MaxSize : nat;
  Bytes : bytes;
  Offset : nat
}.

(** [wrappers.Packer{Bytes: b}] *)
Definition of_bytes (b : bytes) : t :=
  {| PErr := None; MaxSize := 0; Bytes := b; Offset := 0 |}.

Definition Errored (p : t) : bool := bool_decide (PErr p ≠ None).

(** [p.Add(err)] keeps the first error. *)
Definition Add (p : t) (e : error) : t :=
  match PErr p with
  | Some _ => p
  | None => {| PErr := Some e; MaxSize := MaxSize p;
               Bytes := Bytes p; Offset := Offset p |}
  end.

Definition errBadLength : error := ErrBadLength.

(** [copy(dst[off:], src)] *)
Definition copy_at (dst : bytes) (off : nat) (src : bytes) : bytes :=
  take off dst ++ take (length dst - off) src ++ drop (off + length src) dst.

(** [p.Expand(n)]: make room for [n] more bytes, up to [MaxSize]. *)
Definition Expand (p : t) (n : nat) : t :=
  let neededSize := (n + Offset p)%nat in
  if decide (neededSize ≤ length (Bytes p))%nat then p
  else if decide (MaxSize p < neededSize)%nat then Add p errBadLength
  else {| PErr := PErr p; MaxSize := MaxSize p;
          Bytes := Bytes p ++ make (neededSize - length (Bytes p));
          Offset := Offset p |}.

(** [p.CheckSpace(n)]: there are [n] bytes left to read. *)
Definition CheckSpace (p : t) (n : nat) : t :=
  if decide (length (Bytes p) - Offset p < n)%nat then Add p errBadLength
  else p.

Definition write (p : t) (b : bytes) : t :=
  {| PErr := PErr p; MaxSize := MaxSize p;
     Bytes := copy_at (Bytes p) (Offset p) b;
     Offset := (Offset p + length b)%nat |}.

Definition advance (p : t) (n : nat) : t :=
  {| PErr := PErr p; MaxSize := MaxSize p;
     Bytes := Bytes p; Offset := (Offset p + n)%nat |}.

Definition PackFixedBytes (p : t) (b : bytes) : t :=
  let p := Expand p (length b) in
  if Errored p then p else write p b.

Definition PackInt (p : t) (v : Z) : t :=
  let p := Expand p IntLen in
  if Errored p then p else write p (PutUint32 v).

(** [p.PackBytes(b)]: [uint32(len(b))], then the bytes. *)
Definition PackBytes (p : t) (b : bytes) : t :=
  let p := PackInt p (Z.of_nat (length b) mod 2 ^ 32) in
  PackFixedBytes p b.

Definition UnpackLong (p : t) : Z * t :=
  let p := CheckSpace p LongLen in
  if Errored p then (0, p)
  else match Uint64 (drop (Offset p) (Bytes p)) with
       | Some v => (v, advance p LongLen)
       | None => (0, p)
       end.

Definition UnpackInt (p : t) : Z * t :=
  let p := CheckSpace p IntLen in
  if Errored p then (0, p)
  else match Uint32 (drop (Offset p) (Bytes p)) with
       | Some v => (v, advance p IntLen)
       | None => (0, p)
       end.

(** The result is [nil] (here the empty slice) once the packer has
    errored. *)
Definition UnpackFixedBytes (p : t) (size : nat) : bytes * t :=
  let p := CheckSpace p size in
  if Errored p then ([], p)
  else (take size (drop (Offset p) (Bytes p)), advance p size).

Definition UnpackBytes (p : t) : bytes * t :=
  let '(size, p) := UnpackInt p in
  UnpackFixedBytes p (Z.to_nat size).

End Packer.

(** ** The versioned store and its namespaces *)

(** The three key spaces carved out of the one transactional store: the
    two prefix databases and the store itself, where the progress marker
    lives. *)
Inductive space : Type :=
| acceptedAtomicTxDB           (* prefixdb.New(atomicTxIDDBPrefix, db) *)
| acceptedAtomicTxByHeightDB   (* prefixdb.New(atomicHeightTxDBPrefix, db) *)
| rootDB.                      (* db itself *)

#[global] Instance space_eq_dec : EqDecision space.
Proof. solve_decision. Defined.

(** The content of the store, one finite map per key space. *)
Record View : Type := mkView {
  byID : gmap bytes bytes;
  byHeight : gmap bytes bytes;
  root : gmap bytes bytes
}.

Definition space_of (sp : space) (v : View) : gmap bytes bytes :=
  match sp with
  | acceptedAtomicTxDB => byID v
  | acceptedAtomicTxByHeightDB => byHeight v
  | rootDB => root v
  end.

Definition space_put (sp : space) (k val : bytes) (v : View) : View :=
  match sp with
  | acceptedAtomicTxDB =>
      {| byID := <[k := val]> (byID v); byHeight := byHeight v; root := root v |}
  | acceptedAtomicTxByHeightDB =>
      {| byID := byID v; byHeight := <[k := val]> (byHeight v); root := root v |}
  | rootDB =>
      {| byID := byID v; byHeight := byHeight v; root := <[k := val]> (root v) |}
  end.

(** Modelled from the spec: the versioned database and the prefix
    databases are collaborators outside the sources.  Following the store
    adapter's contract, uncommitted writes are visible to later reads on
    the same handle ([current]) but durable only after a commit, which
    flushes every key space together ([committed]).  Every call of the
    store may fail: [faults] is the schedule of the failures to come, one
    slot per call, [None] (or an exhausted schedule) meaning that the call
    goes through. *)
Record versiondb : Type := mkDB {
  current : View;
  committed : View;
  faults : list (option error)
}.

(** The state and error monad in which the repository runs. *)
Definition M (A : Type) : Type := versiondb → result A * versiondb.

#[global] Instance M_ret : MRet M := λ A a db, (Ok a, db).

#[global] Instance M_bind : MBind M := λ A B f m db,
  match m db with
  | (Ok a, db') => f a db'
  | (Err e, db') => (Err e, db')
  | (Panic, db') => (Panic, db')
  end.

Definition fail {A} (e : error) : M A := λ db, (Err e, db).
Definition panic {A} : M A := λ db, (Panic, db).

(** [v, err := m]: the error is a value the caller looks at. *)
Definition attempt {A} (m : M A) : M (error + A) := λ db,
  match m db with
  | (Ok a, db') => (Ok (inr a), db')
  | (Err e, db') => (Ok (inl e), db')
  | (Panic, db') => (Panic, db')
  end.

(** The next slot of the fault schedule. *)
Definition tick : M unit := λ db,
  match faults db with
  | [] => (Ok tt, db)
  | None :: fs =>
      (Ok tt, {| current := current db; committed := committed db; faults := fs |})
  | Some e :: fs =>
      (Err e, {| current := current db; committed := committed db; faults := fs |})
  end.

(** What the three calls of the store do when no failure is scheduled. *)
Definition lookup_current (sp : space) (k : bytes) : M bytes := λ db,
  match space_of sp (current db) !! k with
  | Some v => (Ok v, db)
  | None => (Err ErrNotFound, db)
  end.

Definition stage (sp : space) (k v : bytes) : M unit := λ db,
  (Ok tt, {| current := space_put sp k v (current db);
             committed := committed db; faults := faults db |}).

Definition flush : M unit := λ db,
  (Ok tt, {| current := current db; committed := current db;
             faults := faults db |}).

Definition Get (sp : space) (k : bytes) : M bytes :=
  _ ← tick; lookup_current sp k.

Definition Put (sp : space) (k v : bytes) : M unit :=
  _ ← tick; stage sp k v.

Definition Commit : M unit :=
  _ ← tick; flush.

(** *** Iterators *)

Record Iterator : Type := mkIter {
  it_rest : list (bytes * bytes);   (* the entries still ahead *)
  it_cur : option (bytes * bytes);  (* the entry the iterator points to *)
  it_err : option error             (* the terminal error, if any *)
}.

Definition entry_le (a b : bytes * bytes) : Prop := Is_true (bytes_le a.1 b.1).

#[global] Instance entry_le_dec : RelDecision entry_le.
Proof. intros a b. unfold entry_le. apply _. Defined.

(** Entries of a key space from [start] on (inclusive), in key order; a
    [nil] start is the beginning of the space. *)
Definition entries_from (m : gmap bytes bytes) (start : bytes) : list (bytes * bytes) :=
  merge_sort entry_le
    (filter (λ kv : bytes * bytes, Is_true (bytes_le start kv.1)) (map_to_list m)).

Definition NewIteratorWithStart (sp : space) (start : bytes) (db : versiondb) : Iterator :=
  {| it_rest := entries_from (space_of sp (current db)) start;
     it_cur := None; it_err := None |}.

Definition NewIterator (sp : space) (db : versiondb) : Iterator :=
  NewIteratorWithStart sp [] db.

(** [iter.Next()]: moves to the next entry and tells whether there is
    one.  When the store fails, the iterator stops: [Next] is false and
    the failure is what [Error] returns from then on. *)
Definition iter_Next (it : Iterator) (db : versiondb) : bool * Iterator * versiondb :=
  match it_err it with
  | Some _ => (false, it, db)
  | None =>
      match tick db with
      | (Err e, db') =>
          (false, {| it_rest := []; it_cur := None; it_err := Some e |}, db')
      | (_, db') =>
          match it_rest it with
          | [] => (false, {| it_rest := []; it_cur := None; it_err := None |}, db')
          | kv :: rest =>
              (true, {| it_rest := rest; it_cur := Some kv; it_err := None |}, db')
          end
      end
  end.

Definition iter_Error (it : Iterator) : option error := it_err it.

Definition iter_Value (it : Iterator) : bytes :=
  match it_cur it with
  | Some kv => kv.2
  | None => []
  end.

(** ** The codec *)

(** The codec manager, an interface of the collaborating codec package:
    marshalling and unmarshalling of one transaction and of a list of
    transactions, each of which may fail with a message. *)
Record codec_Manager (Tx : Type) : Type := mkCodec {
  MarshalTx : Tx → string + bytes;
  MarshalTxs : list Tx → string + bytes;
  UnmarshalTx : bytes → string + Tx;
  UnmarshalTxs : bytes → string + list Tx
}.
Arguments MarshalTx {Tx} _ _.
Arguments MarshalTxs {Tx} _ _.
Arguments UnmarshalTx {Tx} _ _.
Arguments UnmarshalTxs {Tx} _ _.

(** A call of the codec inside the repository. *)
Definition codec_call {A} (r : string + A) : M A :=
  match r with
  | inl msg => fail (ErrCodec msg)
  | inr a => mret a
  end.

(** Go's slice expressions [b[:n]] and [b[n:]], which panic out of range
    (the capacity of a value read from the store is its length). *)
Definition slice_to (b : bytes) (n : nat) : M bytes :=
  if decide (n ≤ length b)%nat then mret (take n b) else panic.

Definition slice_from (b : bytes) (n : nat) : M bytes :=
  if decide (n ≤ length b)%nat then mret (drop n b) else panic.

Definition inspect {A} (a : A) : {b : A | a = b} := exist _ a eq_refl.

(** ** The repository *)

(** Modelled from the spec: [units.MiB] is not among the sources; the
    checkpoint cap of the specification is 10 MiB. *)
Definition MiB : Z := 1048576.

Definition commitSizeCap : Z := 10 * MiB.

Definition maxIndexedHeightKey : bytes :=
  list_byte_of_string "maxIndexedAtomicTxHeight".

Section Repository.

(** A transaction is opaque to the repository: it has an identifier and
    the codec serializes it. *)
Context {Tx : Type}.
Variable ID : Tx → bytes.
Variable codec : codec_Manager Tx.

(** Modelled from the spec: [ExtractAtomicTx] is declared outside the
    sources; it decodes one transaction via the codec. *)
Definition ExtractAtomicTx (atomicTxBytes : bytes) : M Tx :=
  codec_call (UnmarshalTx codec atomicTxBytes).

(** Modelled from the spec: [ExtractAtomicTxsBatch] is declared outside
    the sources; it decodes the full list of a height via the codec. *)
Definition ExtractAtomicTxsBatch (atomicTxBytes : bytes) : M (list Tx) :=
  codec_call (UnmarshalTxs codec atomicTxBytes).

Definition indexTxByID (heightBytes : bytes) (tx : Tx) : M unit :=
  txBytes ← codec_call (MarshalTx codec tx);
  (* map txID => [height]+[tx bytes] *)
  let heightTxPacker :=
    Packer.of_bytes (make (LongLen + IntLen + length txBytes)) in
  let heightTxPacker := Packer.PackFixedBytes heightTxPacker heightBytes in
  let heightTxPacker := Packer.PackBytes heightTxPacker txBytes in
  let txID := ID tx in
  Put acceptedAtomicTxDB txID (Packer.Bytes heightTxPacker).

Definition indexTxsAtHeight (heightBytes : bytes) (txs : list Tx) : M unit :=
  txsBytes ← codec_call (MarshalTxs codec txs);
  Put acceptedAtomicTxByHeightDB heightBytes txsBytes.

Definition getByHeightBytes (heightBytes : bytes) : M (list Tx) :=
  txsBytes ← Get acceptedAtomicTxByHeightDB heightBytes;
  ExtractAtomicTxsBatch txsBytes.

(** [GetByHeight] returns all atomic txs processed on block at [height]. *)
Definition GetByHeight (height : Z) : M (list Tx) :=
  let heightBytes := PutUint64 height in
  getByHeightBytes heightBytes.

(** [GetByTxID] queries the by-ID space, parses the entry and returns
    the transaction with the height it was accepted on. *)
Definition GetByTxID (txID : bytes) : M (Tx * Z) :=
  indexedTxBytes ← Get acceptedAtomicTxDB txID;
  if decide (length indexedTxBytes < LongLen)%nat
  then fail (ErrEntryTooShort (length indexedTxBytes))
  else
    (* value is stored as [height]+[tx bytes], decompose with a packer. *)
    let packer := Packer.of_bytes indexedTxBytes in
    let '(height, packer) := Packer.UnpackLong packer in
    let '(txBytes, packer) := Packer.UnpackBytes packer in
    tx ← ExtractAtomicTx txBytes;
    mret (tx, height).

(** The loop [for _, tx := range txs] of [Write]. *)
Fixpoint indexTxsByID (heightBytes : bytes) (txs : list Tx) : M unit :=
  match txs with
  | [] => mret tt
  | tx :: txs' =>
      _ ← indexTxByID heightBytes tx;
      indexTxsByID heightBytes txs'
  end.

(** [Write] updates the indexes maintained on atomic txs, so they can
    be queried by txID or height. *)
Definition Write (height : Z) (txs : list Tx) : M unit :=
  let heightBytes := PutUint64 height in
  _ ← indexTxsByID heightBytes txs;
  _ ← indexTxsAtHeight heightBytes txs;
  Put rootDB maxIndexedHeightKey heightBytes.

(** The scan of the existing transactions in [addTxToHeightIndex]: its
    only branch has an empty body (the [return nil] is commented out),
    so it has no effect whatever the comparison gives. *)
Fixpoint scanExisting (txs : list Tx) (tx : Tx) : unit :=
  match txs with
  | [] => tt
  | existingTx :: txs' =>
      if decide (ID existingTx = ID tx)
      then (* // return nil *) scanExisting txs' tx
      else scanExisting txs' tx
  end.

Definition addTxToHeightIndex (heightBytes : bytes) (tx : Tx) : M unit :=
  r ← attempt (getByHeightBytes heightBytes);
  match r with
  | inl err =>
      if decide (err ≠ ErrNotFound) then fail err
      else
        (* not found: [txs] is nil *)
        let txs := [] in
        let _ := scanExisting txs tx in
        let txs := txs ++ [tx] in
        indexTxsAtHeight heightBytes txs
  | inr txs =>
      let _ := scanExisting txs tx in
      let txs := txs ++ [tx] in
      indexTxsAtHeight heightBytes txs
  end.

(** The body of the migration loop of [initialize], for the entry the
    iterator points to; it returns the new value of
    [pendingBytesApproximation].  The log lines, and the count of indexed
    transactions and the clock that only feed them, are left out. *)
Definition indexEntry (it : Iterator) (pendingBytesApproximation : Z) : M Z :=
  match iter_Error it with
  | Some err => fail (ErrIterator err)
  | None =>
      (* iter.Value() consists of [height packed as uint64] + [tx serialized as packed []byte] *)
      let iterValue := iter_Value it in
      heightBytes ← slice_to iterValue LongLen;
      txBytes ← slice_from iterValue (LongLen + IntLen);
      tx ← ExtractAtomicTx txBytes;
      _ ← addTxToHeightIndex heightBytes tx;
      let txID := ID tx in
      let lastTxID := txID in
      let pendingBytesApproximation :=
        pendingBytesApproximation + Z.of_nat (length txBytes) in
      if decide (pendingBytesApproximation > commitSizeCap)
      then
        _ ← Put rootDB maxIndexedHeightKey lastTxID;
        _ ← Commit;
        mret 0
      else mret pendingBytesApproximation
  end.

(** The loop [for iter.Next() { ... }] of [initialize]; it returns the
    iterator as the loop leaves it. *)
Equations? migrate (it : Iterator) (pendingBytesApproximation : Z)
  (db : versiondb) : result Iterator * versiondb
  by wf (length (it_rest it)) lt :=
migrate it pending db with inspect (iter_Next it db) := {
  | exist _ (true, it1, db1) Hnext with indexEntry it1 pending db1 := {
      | (Ok pending1, db2) => migrate it1 pending1 db2;
      | (Err e, db2) => (Err e, db2);
      | (Panic, db2) => (Panic, db2) };
  | exist _ (false, it1, db1) Hnext => (Ok it1, db1) }.
Proof.
  unfold iter_Next in Hnext.
  destruct (it_err it); [discriminate|].
  destruct (tick db) as [[[]|e|] db0]; try discriminate;
    destruct (it_rest it) as [|kv rest]; try discriminate;
    injection Hnext as <- _; simpl; lia.
Qed.

(** The end of [initialize]: the marker becomes the last accepted
    height and the store is committed. *)
Definition completeMigration (lastAcceptedHeight : Z) : M unit :=
  let indexedHeight := PutUint64 lastAcceptedHeight in
  _ ← Put rootDB maxIndexedHeightKey indexedHeight;
  Commit.

(** [initialize] from the creation of the iterator on, [lastTxID]
    being the cursor to resume from ([nil] from scratch). *)
Definition runMigration (lastTxID : bytes) (lastAcceptedHeight : Z) : M unit :=
  λ db,
    let it := NewIteratorWithStart acceptedAtomicTxDB lastTxID db in
    (_ ← migrate it 0; completeMigration lastAcceptedHeight) db.

(** [initialize] initializes the atomic repository and takes care of
    any required migration from the previous database format which did
    not have a height -> txs index. *)
Definition initialize (lastAcceptedHeight : Z) : M unit :=
  r ← attempt (Get rootDB maxIndexedHeightKey);
  match r with
  | inl err =>
      if decide (err ≠ ErrNotFound) then fail err (* unexpected error *)
      else runMigration [] lastAcceptedHeight (* initializing from scratch *)
  | inr indexHeightBytes =>
      if decide (length indexHeightBytes = LongLen)
      then mret tt (* already initialized *)
      else if decide (length indexHeightBytes = HashLength)
      then runMigration indexHeightBytes lastAcceptedHeight (* partially initialized *)
      else fail (ErrInvalidIndexHeight indexHeightBytes)
  end.

(** [NewAtomicTxRepository]: the repository is the store handle, and
    the constructor's error is that of [initialize]. *)
Definition NewAtomicTxRepository (lastAcceptedHeight : Z) : M unit :=
  initialize lastAcceptedHeight.

Definition IterateByTxID (db : versiondb) : Iterator :=
  NewIterator acceptedAtomicTxDB db.

Definition IterateByHeight (heightBytes : bytes) (db : versiondb) : Iterator :=
  NewIteratorWithStart acceptedAtomicTxByHeightDB heightBytes db.

End Repository.

(** ** Vocabulary of the statements *)

(** The failure scheduled for the next call of the store, if any. *)
Definition scheduled (db : versiondb) : option error :=
  match faults db with
  | f :: _ => f
  | [] => None
  end.

(** The progress marker, as reads on the handle see it and as it is on
    disk. *)
Definition marker (v : View) : option bytes := root v !! maxIndexedHeightKey.

(** What the specification expects of the codec: what it marshals, it
    unmarshals to the same value, and the serialization of a transaction
    fits the [uint32] length prefix of the by-ID record. *)
Record codec_laws {Tx : Type} (c : codec_Manager Tx) : Prop := {
  unmarshal_marshal_tx :
    ∀ tx b, MarshalTx c tx = inr b → UnmarshalTx c b = inr tx;
  unmarshal_marshal_txs :
    ∀ txs b, MarshalTxs c txs = inr b → UnmarshalTxs c b = inr txs;
  marshal_tx_size :
    ∀ tx b, MarshalTx c tx = inr b → Z.of_nat (length b) < 2 ^ 32
}.

(** The by-ID record as the specification lays it out, read without a
    packer: the fixed 8-byte big-endian height prefix, *)
Definition record_height (v : bytes) : option Z := Uint64 (take LongLen v).

(** then the payload announced by the 4-byte big-endian length that
    follows; nothing when the record is too short for it. *)
Definition record_payload (v : bytes) : bytes :=
  match Uint32 (take IntLen (drop LongLen v)) with
  | Some n =>
      if decide (LongLen + IntLen + Z.to_nat n ≤ length v)%nat
      then take (Z.to_nat n) (drop (LongLen + IntLen) v)
      else []
  | None => []
  end.

(** The value [indexTxByID] stores for a payload. *)
Definition by_id_record (heightBytes txBytes : bytes) : bytes :=
  heightBytes ++ PutUint32 (Z.of_nat (length txBytes) mod 2 ^ 32) ++ txBytes.

(** A step that leaves the content of the store alone, whatever it
    returns. *)
Definition same_content (db db' : versiondb) : Prop :=
  current db' = current db ∧ committed db' = committed db.

(** The batch [addTxToHeightIndex] starts from: the transactions already
    indexed at the height, none when the height has no record. *)
Definition existing_batch {Tx : Type} (codec : codec_Manager Tx)
    (heightBytes : bytes) (db : versiondb) : option (list Tx) :=
  match (getByHeightBytes codec heightBytes db).1 with
  | Ok txs => Some txs
  | Err e => if decide (e = ErrNotFound) then Some [] else None
  | Panic => None
  end.

(** ** A small instance: one-byte transactions *)

(** Transactions of one byte, a codec that writes a two-byte version tag
    before them, and a few stores, on which the statements below are
    exercised. *)
Module Sample.

Definition Tx : Type := byte.

(** A 32-byte identifier. *)
Definition ID (tx : Tx) : bytes := make 31 ++ [tx].

Definition version : bytes := [Byte.x00; Byte.x00].

Definition codec : codec_Manager Tx :=
  {| MarshalTx := λ tx, inr (version ++ [tx]);
     MarshalTxs := λ txs, inr (version ++ txs);
     UnmarshalTx := λ b,
       match b with
       | [Byte.x00; Byte.x00; tx] => inr tx
       | _ => inl "unmarshal: bad transaction"%string
       end;
     UnmarshalTxs := λ b,
       match b with
       | Byte.x00 :: Byte.x00 :: txs => inr txs
       | _ => inl "unmarshal: bad transaction list"%string
       end |}.

Definition A : Tx := Byte.x0a.
Definition B : Tx := Byte.x0b.
Definition C : Tx := Byte.x0c.

Definition emptyView : View := {| byID := ∅; byHeight := ∅; root := ∅ |}.

(** A store that was never used and never fails. *)
Definition emptyDB : versiondb :=
  {| current := emptyView; committed := emptyView; faults := [] |}.

Definition withFaults (fs : list (option error)) (db : versiondb) : versiondb :=
  {| current := current db; committed := committed db; faults := fs |}.

Definition withMarker (v : bytes) (db : versiondb) : versiondb :=
  {| current := space_put rootDB maxIndexedHeightKey v (current db);
     committed := space_put rootDB maxIndexedHeightKey v (committed db);
     faults := faults db |}.

(** The store after [Write(10, [A, B])] and a commit. *)
Definition written : versiondb :=
  ((_ ← Write ID codec 10 [A; B]; Commit) emptyDB).2.

(** A store in the previous format: by-ID entries for [A] and [B] at
    height 1 and [C] at height 2, no by-height index and no marker. *)
Definition legacy : versiondb :=
  ((_ ← indexTxByID ID codec (PutUint64 1) A;
    _ ← indexTxByID ID codec (PutUint64 1) B;
    _ ← indexTxByID ID codec (PutUint64 2) C;
    Commit) emptyDB).2.

(** A store in which height 1 already has the batch [[A]]. *)
Definition heightOne : versiondb :=
  (indexTxsAtHeight codec (PutUint64 1) [A] emptyDB).2.

(** The store in the previous format, on a handle whose read of the
    marker goes through and whose iterator then fails on its first call
    because the store was closed. *)
Definition closing : versiondb := withFaults [None; Some ErrClosed] legacy.

(** A store whose migration is complete, at height 7. *)
Definition migrated : versiondb := withMarker (PutUint64 7) emptyDB.

(** A store whose marker is a single byte. *)
Definition corrupt : versiondb := withMarker [Byte.x01] emptyDB.

(** An iterator that points to the by-ID entry of [A] at height 1. *)
Definition atEntryA : Iterator :=
  {| it_rest := [];
     it_cur := Some (ID A, by_id_record (PutUint64 1) (version ++ [A]));
     it_err := None |}.

End Sample.

(** ** More of the repository *)

(** What [GetIndexHeight] gives when the read of the store succeeds: the
    height, or the error it builds with [fmt.Errorf] for a marker that
    is not 8 bytes long. *)
Inductive index_height : Type :=
| IndexHeight (indexHeight : Z)
| UnexpectedLength (n : nat)
    (* "unexpected length for indexHeightBytes %d" *).

(** [GetIndexHeight] returns the last height that was indexed by the
    atomic repository. *)
Definition GetIndexHeight : M index_height :=
  indexHeightBytes ← Get rootDB maxIndexedHeightKey;
  if decide (length indexHeightBytes ≠ LongLen)
  then mret (UnexpectedLength (length indexHeightBytes))
  else match Uint64 indexHeightBytes with
       | Some indexHeight => mret (IndexHeight indexHeight)
       | None => panic
       end.

(** ** More vocabulary *)

(** A computation keeps a relation between the store before and after,
    whatever it returns. *)
Definition preserves {A : Type} (R : versiondb → versiondb → Prop) (m : M A) : Prop :=
  ∀ db, R db (m db).2.

(** Nothing is committed. *)
Definition same_committed (db db' : versiondb) : Prop :=
  committed db' = committed db.

(** The staged key space [sp] is left alone. *)
Definition same_space (sp : space) (db db' : versiondb) : Prop :=
  space_of sp (current db') = space_of sp (current db).

(** The transactions the migration loop appends to the batch of the
    height key [heightBytes] when it goes through the entries [es]: those
    of the entries whose first 8 bytes are [heightBytes], decoded from
    what follows the first 8 + 4 bytes, in the order of the entries. *)
Fixpoint migrated_txs {Tx : Type} (codec : codec_Manager Tx)
    (es : list (bytes * bytes)) (heightBytes : bytes) : list Tx :=
  match es with
  | [] => []
  | kv :: es' =>
      match UnmarshalTx codec (drop (LongLen + IntLen) kv.2) with
      | inr tx =>
          if decide (take LongLen kv.2 = heightBytes)
          then tx :: migrated_txs codec es' heightBytes
          else migrated_txs codec es' heightBytes
      | inl _ => migrated_txs codec es' heightBytes
      end
  end.

(** The payload bytes the migration loop counts for the entries [es]. *)
Fixpoint payload_size (es : list (bytes * bytes)) : Z :=
  match es with
  | [] => 0
  | kv :: es' => Z.of_nat (length (drop (LongLen + IntLen) kv.2)) + payload_size es'
  end.

(** The big-endian encoding of [v] on [n] bytes, of which [PutUint64]
    and [PutUint32] are the cases 8 and 4. *)
Fixpoint be_bytes (n : nat) (v : Z) : bytes :=
  match n with
  | O => []
  | S n' => byte_of_Z (Z.shiftr v (8 * Z.of_nat n')) :: be_bytes n' v
  end.

(** ** warptest: a block client for tests *)

Module warptest.

(** The part of [snowmantest.Block] that [MakeBlockClient] sets. *)
Inductive Status : Type := Undecided | Accepted | Rejected.

Record Block : Type := mkBlock {
  IDV : bytes;
  StatusV : Status
}.

(** [BlockClient]: from a block identifier to a block or an error (the
    context argument is not used). *)
Definition BlockClient : Type := bytes → error + Block.

Definition GetAcceptedBlock (f : BlockClient) (blockID : bytes) : error + Block :=
  f blockID.

(** [slices.Contains] *)
Fixpoint Contains (s : list bytes) (v : bytes) : bool :=
  match s with
  | [] => false
  | x :: s' => if decide (v = x) then true else Contains s' v
  end.

(** [MakeBlockClient] returns a new BlockClient that returns the provided
    blocks.  If a block is requested that isn't part of the provided
    blocks, an error is returned. *)
Definition MakeBlockClient (blkIDs : list bytes) : BlockClient :=
  λ blkID,
    if negb (Contains blkIDs blkID)
    then inl ErrNotFound
    else inr {| IDV := blkID; StatusV := Accepted |}.

(** [EmptyBlockClient] returns an error if a block is requested. *)
Definition EmptyBlockClient : BlockClient := MakeBlockClient [].

End warptest.

(** ** More stores of the small instance *)

Module Sample2.

(** A store in the previous format with one by-ID record of 9 bytes. *)
Definition shortRecord : versiondb :=
  (Put acceptedAtomicTxDB (Sample.ID Sample.A) (PutUint64 1 ++ [Byte.x00])
     Sample.emptyDB).2.

(** A store in the previous format with one by-ID record whose payload
    the codec does not decode. *)
Definition badPayload : versiondb :=
  (Put acceptedAtomicTxDB (Sample.ID Sample.A)
     (by_id_record (PutUint64 1) [Byte.xff]) Sample.emptyDB).2.

(** A store whose migration stopped at the cursor [ID B]. *)
Definition resuming : versiondb :=
  Sample.withMarker (Sample.ID Sample.B) Sample.legacy.

End Sample2.

(** ** The checkpoints of the specification *)

(** The payload bytes of a by-ID entry: what follows the 8 + 4 bytes of
    the height and of the length. *)
Definition entry_payload_len (kv : bytes * bytes) : Z :=
  Z.of_nat (length (drop (LongLen + IntLen) kv.2)).

(** Following the words of the specification: the counter of the payload
    bytes processed since the last checkpoint grows by the payload of
    each entry processed, and when it exceeds the cap a checkpoint is
    taken and the counter starts again from zero. *)
Definition spec_counter_after (pending : Z) (kv : bytes * bytes) : Z :=
  if decide (pending + entry_payload_len kv > commitSizeCap)
  then 0
  else pending + entry_payload_len kv.

(** The number of entries of [es] processed when the last checkpoint of
    a scan of [es] is taken, the counter being [pending] when the scan
    starts; [None] when the scan takes no checkpoint. *)
Fixpoint spec_last_checkpoint (es : list (bytes * bytes)) (pending : Z) : option nat :=
  match es with
  | [] => None
  | kv :: es' =>
      match spec_last_checkpoint es' (spec_counter_after pending kv) with
      | Some k => Some (S k)
      | None =>
          if decide (pending + entry_payload_len kv > commitSizeCap)
          then Some 1%nat
          else None
      end
  end.

(** * Properties *)

(** ** Big-endian encoding *)

Lemma Z_of_byte_of_Z (v : Z) : Z_of_byte (byte_of_Z v) = Z.land v 255.
Proof.
  unfold Z_of_byte, byte_of_Z.
  assert (Hr : 0 <= Z.land v 255 < 256).
  { change 255 with (Z.ones 8). rewrite Z.land_ones by lia.
    apply Z.mod_pos_bound. lia. }
  destruct (Byte.of_N (Z.to_N (Z.land v 255))) as [b|] eqn:Hb; simpl.
  - apply Byte.to_of_N in Hb. rewrite Hb. lia.
  - apply Byte.of_N_None_iff in Hb. lia.
Qed.

Lemma Z_of_byte_range (b : byte) : 0 <= Z_of_byte b < 256.
Proof.
  unfold Z_of_byte. pose proof (Byte.to_N_bounded b). lia.
Qed.

(** The bits of the byte that [PutUint64] and [PutUint32] write for the
    bits [k .. k+7] of [v], put back in place. *)
Lemma chunk_testbit (v k n : Z) :
  0 <= k → 0 <= n →
  Z.testbit (Z.shiftl (Z_of_byte (byte_of_Z (Z.shiftr v k))) k) n
  = (k <=? n) && (n <? k + 8) && Z.testbit v n.
Proof.
  intros Hk Hn. rewrite Z_of_byte_of_Z, Z.shiftl_spec by lia.
  destruct (Z.leb_spec k n) as [Hle|Hlt]; simpl.
  - change 255 with (Z.ones 8). rewrite Z.land_ones by lia.
    destruct (Z.ltb_spec n (k + 8)) as [Hlt|Hge]; simpl.
    + rewrite Z.mod_pow2_bits_low by lia.
      rewrite Z.shiftr_spec by lia. f_equal. lia.
    + apply Z.mod_pow2_bits_high. lia.
  - apply Z.testbit_neg_r. lia.
Qed.

Lemma chunk0_testbit (v n : Z) :
  0 <= n →
  Z.testbit (Z_of_byte (byte_of_Z v)) n = (0 <=? n) && (n <? 0 + 8) && Z.testbit v n.
Proof.
  intros Hn. rewrite <- (chunk_testbit v 0 n) by lia.
  now rewrite Z.shiftr_0_r, Z.shiftl_0_r.
Qed.

Lemma testbit_above (v w n : Z) :
  0 <= v < 2 ^ w → 0 <= w <= n → Z.testbit v n = false.
Proof.
  intros Hv Hw. destruct (decide (v = 0)) as [->|Hne].
  - apply Z.bits_0.
  - apply Z.bits_above_log2; [lia|].
    assert (Z.log2 v < w) by (apply Z.log2_lt_pow2; lia). lia.
Qed.

Ltac decide_cmp :=
  repeat match goal with
  | |- context [?a <=? ?b] =>
      first [ rewrite (proj2 (Z.leb_le a b)) by lia
            | rewrite (proj2 (Z.leb_gt a b)) by lia ]
  | |- context [?a <? ?b] =>
      first [ rewrite (proj2 (Z.ltb_lt a b)) by lia
            | rewrite (proj2 (Z.ltb_ge a b)) by lia ]
  end.

Lemma Uint64_PutUint64 (v : Z) (rest : bytes) :
  0 <= v < 2 ^ 64 → Uint64 (PutUint64 v ++ rest) = Some v.
Proof.
  intros Hv. unfold PutUint64, Uint64. simpl. f_equal.
  apply Z.bits_inj'. intros n Hn.
  rewrite !Z.lor_spec, !chunk_testbit, chunk0_testbit by lia.
  destruct (Z.testbit v n) eqn:Hb.
  - assert (n < 64).
    { destruct (Z.lt_ge_cases n 64) as [|Hge]; [done|].
      rewrite (testbit_above v 64 n) in Hb by lia. done. }
    assert (Hcases : n < 8 ∨ 8 <= n < 16 ∨ 16 <= n < 24 ∨ 24 <= n < 32 ∨
                     32 <= n < 40 ∨ 40 <= n < 48 ∨ 48 <= n < 56 ∨ 56 <= n) by lia.
    destruct Hcases as [?|[?|[?|[?|[?|[?|[?|?]]]]]]]; decide_cmp; reflexivity.
  - rewrite !andb_false_r. reflexivity.
Qed.

Lemma Uint32_PutUint32 (v : Z) (rest : bytes) :
  0 <= v < 2 ^ 32 → Uint32 (PutUint32 v ++ rest) = Some v.
Proof.
  intros Hv. unfold PutUint32, Uint32. simpl. f_equal.
  apply Z.bits_inj'. intros n Hn.
  rewrite !Z.lor_spec, !chunk_testbit, chunk0_testbit by lia.
  destruct (Z.testbit v n) eqn:Hb.
  - assert (n < 32).
    { destruct (Z.lt_ge_cases n 32) as [|Hge]; [done|].
      rewrite (testbit_above v 32 n) in Hb by lia. done. }
    assert (Hcases : n < 8 ∨ 8 <= n < 16 ∨ 16 <= n < 24 ∨ 24 <= n) by lia.
    destruct Hcases as [?|[?|[?|?]]]; decide_cmp; reflexivity.
  - rewrite !andb_false_r. reflexivity.
Qed.

Lemma PutUint64_length (v : Z) : length (PutUint64 v) = LongLen.
Proof. reflexivity. Qed.

Lemma PutUint32_length (v : Z) : length (PutUint32 v) = IntLen.
Proof. reflexivity. Qed.

(** ** The layout of the by-ID record *)

Lemma copy_at_app (pre mid post src : bytes) :
  length mid = length src →
  Packer.copy_at (pre ++ mid ++ post) (length pre) src = pre ++ src ++ post.
Proof.
  intros Hlen. unfold Packer.copy_at.
  rewrite take_app_length. f_equal.
  rewrite !length_app.
  rewrite firstn_all2 by lia. f_equal.
  rewrite drop_app_ge by lia.
  rewrite drop_app_ge by lia.
  replace (length pre + length src - length pre - length mid)%nat with 0%nat by lia.
  reflexivity.
Qed.

Lemma make_length (n : nat) : length (make n) = n.
Proof. apply length_replicate. Qed.

Lemma make_add (n m : nat) : make (n + m) = make n ++ make m.
Proof. apply replicate_add. Qed.

Lemma PackFixedBytes_fits (p : Packer.t) (b : bytes) :
  Packer.PErr p = None →
  (length b + Packer.Offset p ≤ length (Packer.Bytes p))%nat →
  Packer.PackFixedBytes p b = Packer.write p b.
Proof.
  intros He Hfit. unfold Packer.PackFixedBytes, Packer.Expand.
  rewrite decide_True by lia.
  unfold Packer.Errored. rewrite He.
  rewrite bool_decide_false by naive_solver. reflexivity.
Qed.

Lemma PackInt_fits (p : Packer.t) (v : Z) :
  Packer.PErr p = None →
  (IntLen + Packer.Offset p ≤ length (Packer.Bytes p))%nat →
  Packer.PackInt p v = Packer.write p (PutUint32 v).
Proof.
  intros He Hfit. unfold Packer.PackInt, Packer.Expand.
  rewrite decide_True by lia.
  unfold Packer.Errored. rewrite He.
  rewrite bool_decide_false by naive_solver. reflexivity.
Qed.

(** What [indexTxByID] packs: the height bytes, the length of the payload
    as a [uint32], the payload. *)
Lemma packed_record (heightBytes txBytes : bytes) :
  length heightBytes = LongLen →
  Packer.Bytes
    (Packer.PackBytes
       (Packer.PackFixedBytes
          (Packer.of_bytes (make (LongLen + IntLen + length txBytes)))
          heightBytes)
       txBytes)
  = heightBytes ++ PutUint32 (Z.of_nat (length txBytes) mod 2 ^ 32) ++ txBytes.
Proof.
  intros Hh.
  set (len := PutUint32 (Z.of_nat (length txBytes) mod 2 ^ 32)).
  assert (Hlen : length len = IntLen) by reflexivity.
  rewrite PackFixedBytes_fits;
    [| reflexivity
     | unfold Packer.of_bytes; cbn [Packer.Bytes Packer.Offset];
       rewrite make_length; lia ].
  unfold Packer.PackBytes. fold len.
  unfold Packer.write at 1, Packer.of_bytes.
  cbn [Packer.Bytes Packer.Offset Packer.PErr Packer.MaxSize].
  rewrite <- Nat.add_assoc, make_add.
  pose proof (copy_at_app [] (make LongLen) (make (IntLen + length txBytes))
                heightBytes) as Hc.
  cbn [length app] in Hc. rewrite Hc by (rewrite make_length; lia). clear Hc.
  rewrite PackInt_fits;
    [| reflexivity
     | cbn [Packer.Bytes Packer.Offset];
       rewrite length_app, make_length; lia ].
  fold len. unfold Packer.write at 1.
  cbn [Packer.Bytes Packer.Offset Packer.PErr Packer.MaxSize].
  rewrite make_add.
  replace (0 + length heightBytes)%nat with (length heightBytes) by lia.
  rewrite copy_at_app by (rewrite make_length; lia).
  rewrite PackFixedBytes_fits;
    [| reflexivity
     | cbn [Packer.Bytes Packer.Offset];
       rewrite !length_app, make_length; lia ].
  unfold Packer.write.
  cbn [Packer.Bytes Packer.Offset Packer.PErr Packer.MaxSize].
  pose proof (copy_at_app (heightBytes ++ len) (make (length txBytes)) [] txBytes) as Hc.
  rewrite !app_nil_r, length_app, <- !app_assoc in Hc.
  rewrite Hc by apply make_length. reflexivity.
Qed.

Lemma Uint64_take (v : bytes) : Uint64 (take LongLen v) = Uint64 v.
Proof.
  do 8 (destruct v as [|? v]; [reflexivity|]). reflexivity.
Qed.

Lemma Uint32_take (v : bytes) : Uint32 (take IntLen v) = Uint32 v.
Proof.
  do 4 (destruct v as [|? v]; [reflexivity|]). reflexivity.
Qed.

Lemma Uint64_is_Some (v : bytes) : (LongLen ≤ length v)%nat → is_Some (Uint64 v).
Proof.
  unfold LongLen. intros Hlen.
  do 8 (destruct v as [|? v]; [simpl in Hlen; lia|]). simpl. eauto.
Qed.

Lemma Uint32_is_Some (v : bytes) : (IntLen ≤ length v)%nat → is_Some (Uint32 v).
Proof.
  unfold IntLen. intros Hlen.
  do 4 (destruct v as [|? v]; [simpl in Hlen; lia|]). simpl. eauto.
Qed.

Lemma Uint32_short (v : bytes) : (length v < IntLen)%nat → Uint32 v = None.
Proof.
  unfold IntLen. intros Hlen.
  do 4 (destruct v as [|? v]; [reflexivity|]). simpl in Hlen. lia.
Qed.

Lemma Uint32_nonneg (v : bytes) (n : Z) : Uint32 v = Some n → 0 <= n.
Proof.
  unfold Uint32. do 4 (destruct v as [|? v]; [discriminate|]).
  intros [= <-].
  repeat (apply Z.lor_nonneg; split);
    try apply Z.shiftl_nonneg; apply Z_of_byte_range.
Qed.

(** [UnpackLong] on a fresh packer over a value that has its 8 bytes. *)
Lemma UnpackLong_of_bytes (v : bytes) :
  (LongLen ≤ length v)%nat →
  ∃ h, record_height v = Some h ∧
       Packer.UnpackLong (Packer.of_bytes v)
       = (h, Packer.mk None 0 v LongLen).
Proof.
  intros Hlen. destruct (Uint64_is_Some v Hlen) as [h Hh].
  exists h. unfold record_height. rewrite Uint64_take. split; [done|].
  unfold Packer.UnpackLong, Packer.CheckSpace, Packer.of_bytes.
  cbn [Packer.Bytes Packer.Offset].
  rewrite decide_False by lia.
  unfold Packer.Errored. cbn [Packer.PErr].
  rewrite bool_decide_false by naive_solver.
  cbn [Packer.Bytes Packer.Offset]. rewrite drop_0, Hh. reflexivity.
Qed.

(** [UnpackBytes] after the height gives the payload of the record, or
    nothing when the record is cut short. *)
Lemma UnpackBytes_after_long (v : bytes) :
  (Packer.UnpackBytes (Packer.mk None 0 v LongLen)).1 = record_payload v.
Proof.
  unfold record_payload, Packer.UnpackBytes, Packer.UnpackInt, Packer.CheckSpace.
  cbn [Packer.Bytes Packer.Offset]. rewrite Uint32_take.
  pose proof (eq_refl : LongLen = 8%nat) as HL.
  pose proof (eq_refl : IntLen = 4%nat) as HI.
  destruct (decide (length v - LongLen < IntLen)%nat) as [Hshort|Hok].
  - rewrite (Uint32_short (drop LongLen v)) by (rewrite length_drop; lia).
    unfold Packer.Add, Packer.Errored. cbn [Packer.PErr].
    rewrite bool_decide_true by naive_solver.
    unfold Packer.UnpackFixedBytes, Packer.CheckSpace. cbn [Packer.Bytes Packer.Offset].
    destruct (decide _); unfold Packer.Add, Packer.Errored; cbn [Packer.PErr];
      rewrite bool_decide_true by naive_solver; reflexivity.
  - unfold Packer.Errored. cbn [Packer.PErr].
    rewrite bool_decide_false by naive_solver.
    cbn [Packer.Bytes Packer.Offset].
    destruct (Uint32_is_Some (drop LongLen v)) as [n Hn];
      [rewrite length_drop; lia|].
    rewrite Hn. unfold Packer.UnpackFixedBytes, Packer.CheckSpace, Packer.advance.
    cbn [Packer.Bytes Packer.Offset Packer.PErr Packer.MaxSize].
    destruct (decide (length v - (LongLen + IntLen) < Z.to_nat n)%nat) as [Hcut|Hfit].
    + unfold Packer.Add, Packer.Errored. cbn [Packer.PErr].
      rewrite bool_decide_true by naive_solver.
      rewrite decide_False by lia. reflexivity.
    + unfold Packer.Errored. cbn [Packer.PErr].
      rewrite bool_decide_false by naive_solver.
      cbn [Packer.Bytes Packer.Offset].
      rewrite decide_True by lia. reflexivity.
Qed.

(** On a record written by [indexTxByID], the payload read back is the
    payload written, and so are the bytes after the first 8 + 4. *)
Lemma record_payload_by_id_record (heightBytes txBytes : bytes) :
  length heightBytes = LongLen →
  Z.of_nat (length txBytes) < 2 ^ 32 →
  record_payload (by_id_record heightBytes txBytes) = txBytes.
Proof.
  intros Hh Hsize. unfold record_payload, by_id_record.
  rewrite Z.mod_small by lia.
  rewrite Uint32_take.
  rewrite drop_app_length' by done.
  rewrite Uint32_PutUint32 by lia.
  rewrite Nat2Z.id, !length_app, Hh, PutUint32_length.
  rewrite decide_True by lia.
  rewrite app_assoc, drop_app_length' by (rewrite length_app, Hh; reflexivity).
  apply firstn_all.
Qed.

Lemma drop_by_id_record (heightBytes txBytes : bytes) :
  length heightBytes = LongLen →
  drop (LongLen + IntLen) (by_id_record heightBytes txBytes) = txBytes.
Proof.
  intros Hh. unfold by_id_record.
  rewrite app_assoc. apply drop_app_length'.
  rewrite length_app, Hh. reflexivity.
Qed.

Lemma record_height_by_id_record (h : Z) (txBytes : bytes) :
  0 <= h < 2 ^ 64 →
  record_height (by_id_record (PutUint64 h) txBytes) = Some h.
Proof.
  intros Hh. unfold record_height, by_id_record.
  rewrite Uint64_take. apply Uint64_PutUint64, Hh.
Qed.

(** ** The monad and the store *)

Lemma bind_Ok {A B} (m : M A) (f : A → M B) (db db' : versiondb) (b : B) :
  (m ≫= f) db = (Ok b, db') →
  ∃ a db1, m db = (Ok a, db1) ∧ f a db1 = (Ok b, db').
Proof.
  unfold mbind, M_bind. destruct (m db) as [[a|e|] db1]; intros H.
  - eauto.
  - discriminate.
  - discriminate.
Qed.

Lemma bind_eq {A B} (m : M A) (f : A → M B) (db db1 : versiondb) (a : A) :
  m db = (Ok a, db1) → (m ≫= f) db = f a db1.
Proof. intros H. unfold mbind, M_bind. rewrite H. reflexivity. Qed.

Lemma same_content_refl db : same_content db db.
Proof. split; reflexivity. Qed.

Lemma same_content_trans db1 db2 db3 :
  same_content db1 db2 → same_content db2 db3 → same_content db1 db3.
Proof. intros [H1 H2] [H3 H4]. split; congruence. Qed.

Lemma tick_same_content (db : versiondb) : same_content db (tick db).2.
Proof.
  unfold tick. destruct (faults db) as [|[e|] fs]; split; reflexivity.
Qed.

Lemma tick_scheduled (db : versiondb) :
  scheduled db = None → ∃ db', tick db = (Ok tt, db') ∧ same_content db db'.
Proof.
  unfold scheduled, tick. destruct (faults db) as [|[e|] fs]; intros H;
    try discriminate; eexists; (split; [reflexivity|]); split; reflexivity.
Qed.

Lemma Get_scheduled (sp : space) (k : bytes) (db : versiondb) :
  scheduled db = None →
  ∃ db', same_content db db' ∧
    Get sp k db = (match space_of sp (current db) !! k with
                   | Some v => Ok v
                   | None => Err ErrNotFound
                   end, db').
Proof.
  intros Hs. destruct (tick_scheduled db Hs) as (db' & Ht & Hc).
  exists db'. split; [done|].
  unfold Get. rewrite (bind_eq _ _ _ _ _ Ht). unfold lookup_current.
  destruct Hc as [-> _]. destruct (space_of sp (current db) !! k); reflexivity.
Qed.

Lemma Get_same_content {sp k db} : same_content db (Get sp k db).2.
Proof.
  unfold Get, mbind, M_bind. pose proof (tick_same_content db) as Hc.
  destruct (tick db) as [[[]|e|] db1]; simpl in *; try done.
  unfold lookup_current. destruct (_ !! _); done.
Qed.

Lemma Get_Ok (sp : space) (k v : bytes) (db db' : versiondb) :
  Get sp k db = (Ok v, db') →
  space_of sp (current db) !! k = Some v ∧ same_content db db'.
Proof.
  intros H. pose proof (@Get_same_content sp k db) as Hc. rewrite H in Hc.
  split; [|done].
  apply bind_Ok in H as ([] & db1 & Ht & Hl).
  pose proof (tick_same_content db) as [Hc1 _]. rewrite Ht in Hc1. simpl in Hc1.
  unfold lookup_current in Hl. rewrite Hc1 in Hl.
  destruct (space_of sp (current db) !! k); congruence.
Qed.

Lemma Put_Ok (sp : space) (k v : bytes) (db db' : versiondb) :
  Put sp k v db = (Ok tt, db') →
  current db' = space_put sp k v (current db) ∧ committed db' = committed db.
Proof.
  intros H. apply bind_Ok in H as ([] & db1 & Ht & Hs).
  pose proof (tick_same_content db) as [Hc1 Hc2]. rewrite Ht in Hc1, Hc2.
  simpl in *. unfold stage in Hs. injection Hs as <-. simpl.
  rewrite Hc1, Hc2. done.
Qed.

Lemma Commit_Ok (db db' : versiondb) :
  Commit db = (Ok tt, db') →
  current db' = current db ∧ committed db' = current db.
Proof.
  intros H. apply bind_Ok in H as ([] & db1 & Ht & Hs).
  pose proof (tick_same_content db) as [Hc1 Hc2]. rewrite Ht in Hc1, Hc2.
  simpl in *. unfold flush in Hs. injection Hs as <-. simpl.
  rewrite Hc1. done.
Qed.

Lemma codec_call_Ok {A} (r : string + A) (a : A) (db db' : versiondb) :
  codec_call r db = (Ok a, db') → r = inr a ∧ db' = db.
Proof.
  unfold codec_call. destruct r as [msg|a']; intros H.
  - discriminate.
  - injection H as -> ->. done.
Qed.

Lemma marker_space_put (v : bytes) (vw : View) :
  marker (space_put rootDB maxIndexedHeightKey v vw) = Some v.
Proof. unfold marker. simpl. apply lookup_insert_eq. Qed.

(** ** The repository *)

Section RepositoryProperties.

Context {Tx : Type}.
Variable ID : Tx → bytes.
Variable codec : codec_Manager Tx.

Lemma indexTxByID_Ok (heightBytes : bytes) (tx : Tx) (db db' : versiondb) :
  length heightBytes = LongLen →
  indexTxByID ID codec heightBytes tx db = (Ok tt, db') →
  ∃ txBytes, MarshalTx codec tx = inr txBytes ∧
    current db' = space_put acceptedAtomicTxDB (ID tx)
                    (by_id_record heightBytes txBytes) (current db) ∧
    committed db' = committed db.
Proof.
  intros Hh H. unfold indexTxByID in H.
  apply bind_Ok in H as (txBytes & db1 & Hm & Hput).
  apply codec_call_Ok in Hm as [Hm ->].
  rewrite packed_record in Hput by done.
  apply Put_Ok in Hput as [Hc Hd]. exists txBytes. done.
Qed.

Lemma indexTxsAtHeight_Ok (heightBytes : bytes) (txs : list Tx) (db db' : versiondb) :
  indexTxsAtHeight codec heightBytes txs db = (Ok tt, db') →
  ∃ txsBytes, MarshalTxs codec txs = inr txsBytes ∧
    current db' = space_put acceptedAtomicTxByHeightDB heightBytes txsBytes
                    (current db) ∧
    committed db' = committed db.
Proof.
  intros H. unfold indexTxsAtHeight in H.
  apply bind_Ok in H as (txsBytes & db1 & Hm & Hput).
  apply codec_call_Ok in Hm as [Hm ->].
  apply Put_Ok in Hput as [Hc Hd]. exists txsBytes. done.
Qed.

(** The loop of [Write] leaves alone the by-ID entries of other
    identifiers. *)
Lemma indexTxsByID_frame (heightBytes : bytes) (txs : list Tx) :
  length heightBytes = LongLen →
  ∀ db db', indexTxsByID ID codec heightBytes txs db = (Ok tt, db') →
  ∀ k, k ∉ ID <$> txs → byID (current db') !! k = byID (current db) !! k.
Proof.
  intros Hh. induction txs as [|tx txs IH]; intros db db' H k Hk.
  - simpl in H. injection H as <-. reflexivity.
  - simpl in H. apply bind_Ok in H as ([] & db1 & H1 & H2).
    apply indexTxByID_Ok in H1 as (b & _ & Hc & _); [|done].
    rewrite fmap_cons in Hk. apply not_elem_of_cons in Hk as [Hne Hk].
    rewrite (IH _ _ H2 k Hk), Hc. simpl. by rewrite lookup_insert_ne.
Qed.

(** After the loop of [Write], the by-ID entry of each identifier of
    [txs] is the record of a transaction of [txs] with that identifier. *)
Lemma indexTxsByID_entries (heightBytes : bytes) (txs : list Tx) :
  length heightBytes = LongLen →
  ∀ db db', indexTxsByID ID codec heightBytes txs db = (Ok tt, db') →
  ∀ tx, tx ∈ txs →
    ∃ tx' txBytes, tx' ∈ txs ∧ ID tx' = ID tx ∧
      MarshalTx codec tx' = inr txBytes ∧
      byID (current db') !! ID tx = Some (by_id_record heightBytes txBytes).
Proof.
  intros Hh. induction txs as [|tx0 txs IH]; intros db db' H tx Hin.
  - by apply elem_of_nil in Hin.
  - simpl in H. apply bind_Ok in H as ([] & db1 & H1 & H2).
    destruct (decide (ID tx ∈ ID <$> txs)) as [Hlater|Hnot].
    + apply list_elem_of_fmap in Hlater as (tx1 & Heq & Hin1).
      destruct (IH _ _ H2 tx1 Hin1) as (tx' & b & Hin' & Hid & Hm & Hl).
      exists tx', b. rewrite Heq.
      split; [apply elem_of_cons; by right|]. done.
    + assert (tx = tx0) as ->.
      { apply elem_of_cons in Hin as [->|Hin]; [done|].
        exfalso. apply Hnot. apply list_elem_of_fmap. eauto. }
      apply indexTxByID_Ok in H1 as (b & Hm & Hc & _); [|done].
      exists tx0, b.
      split; [apply elem_of_cons; by left|].
      split; [done|]. split; [done|].
      rewrite (indexTxsByID_frame _ _ Hh _ _ H2 _ Hnot), Hc. simpl.
        apply lookup_insert_eq.
Qed.

Lemma Write_Ok (height : Z) (txs : list Tx) (db db' : versiondb) :
  Write ID codec height txs db = (Ok tt, db') →
  ∃ db1 db2 txsBytes,
    indexTxsByID ID codec (PutUint64 height) txs db = (Ok tt, db1) ∧
    MarshalTxs codec txs = inr txsBytes ∧
    current db2 = space_put acceptedAtomicTxByHeightDB (PutUint64 height)
                    txsBytes (current db1) ∧
    current db' = space_put rootDB maxIndexedHeightKey (PutUint64 height)
                    (current db2).
Proof.
  intros H. unfold Write in H.
  apply bind_Ok in H as ([] & db1 & H1 & H).
  apply bind_Ok in H as ([] & db2 & H2 & H3).
  apply indexTxsAtHeight_Ok in H2 as (b & Hm & Hc & _).
  apply Put_Ok in H3 as [Hc3 _].
  exists db1, db2, b. done.
Qed.

(** C6 (marker after Write): when [Write height txs] returns without
    error, the progress marker holds exactly the 8-byte big-endian
    encoding of [height]. *)
Theorem Write_sets_marker (height : Z) (txs : list Tx) (db db' : versiondb) :
  Write ID codec height txs db = (Ok tt, db') →
  marker (current db') = Some (PutUint64 height) ∧
  length (PutUint64 height) = 8%nat.
Proof.
  intros H. apply Write_Ok in H as (db1 & db2 & b & _ & _ & _ & Hc).
  split; [|reflexivity].
  rewrite Hc. apply marker_space_put.
Qed.

Lemma GetByTxID_record (txID v : bytes) (db : versiondb) :
  scheduled db = None →
  byID (current db) !! txID = Some v →
  (LongLen ≤ length v)%nat →
  ∃ h, record_height v = Some h ∧
    (GetByTxID codec txID db).1
    = match UnmarshalTx codec (record_payload v) with
      | inr tx => Ok (tx, h)
      | inl msg => Err (ErrCodec msg)
      end.
Proof.
  intros Hs Hl Hlen.
  destruct (Get_scheduled acceptedAtomicTxDB txID db Hs) as (db1 & _ & Hg).
  simpl in Hg. rewrite Hl in Hg.
  destruct (UnpackLong_of_bytes v Hlen) as (h & Hh & Hu).
  exists h. split; [done|].
  unfold GetByTxID. rewrite (bind_eq _ _ _ _ _ Hg).
  rewrite decide_False by lia. rewrite Hu.
  pose proof (UnpackBytes_after_long v) as Hp.
  destruct (Packer.UnpackBytes _) as [txBytes p]. simpl in Hp. subst txBytes.
  unfold ExtractAtomicTx, mbind, M_bind, codec_call.
  destruct (UnmarshalTx codec (record_payload v)); reflexivity.
Qed.

(** C1 (round trip): after [Write height txs] succeeds, [GetByHeight
    height] returns a list with the same set of identifiers as [txs],
    and [GetByTxID] on the identifier of each transaction of [txs]
    returns that transaction and [height]; this for a codec that
    unmarshals what it marshalled, identifiers that tell the
    transactions of [txs] apart, a height in the [uint64] range and
    reads that the store lets through. *)
Theorem Write_round_trip (height : Z) (txs : list Tx) (db db' : versiondb) :
  codec_laws codec →
  0 <= height < 2 ^ 64 →
  (∀ t1 t2, t1 ∈ txs → t2 ∈ txs → ID t1 = ID t2 → t1 = t2) →
  Write ID codec height txs db = (Ok tt, db') →
  scheduled db' = None →
  (∃ l, (GetByHeight codec height db').1 = Ok l ∧
        (list_to_set (ID <$> l) : gset bytes) = list_to_set (ID <$> txs)) ∧
  (∀ tx, tx ∈ txs → (GetByTxID codec (ID tx) db').1 = Ok (tx, height)).
Proof.
  intros Hlaws Hrange Huniq H Hs.
  apply Write_Ok in H as (db1 & db2 & b & Hidx & Hm & Hc2 & Hc).
  split.
  - exists txs. split; [|reflexivity].
    destruct (Get_scheduled acceptedAtomicTxByHeightDB (PutUint64 height) db' Hs)
      as (db3 & _ & Hg).
    rewrite Hc, Hc2 in Hg. simpl in Hg. rewrite lookup_insert_eq in Hg.
    unfold GetByHeight, getByHeightBytes. rewrite (bind_eq _ _ _ _ _ Hg).
    unfold ExtractAtomicTxsBatch.
    rewrite (unmarshal_marshal_txs _ Hlaws _ _ Hm). reflexivity.
  - intros tx Hin.
    destruct (indexTxsByID_entries _ txs (PutUint64_length height) _ _ Hidx tx Hin)
      as (tx' & txBytes & Hin' & Hid & Hmt & Hl).
    assert (tx' = tx) as -> by (apply Huniq; done).
    assert (Hl' : byID (current db') !! ID tx
                  = Some (by_id_record (PutUint64 height) txBytes)).
    { rewrite Hc, Hc2. exact Hl. }
    pose proof (marshal_tx_size _ Hlaws _ _ Hmt) as Hsize.
    destruct (GetByTxID_record (ID tx) _ db' Hs Hl') as (h & Hh & ->).
    { unfold by_id_record. rewrite length_app, PutUint64_length. lia. }
    rewrite record_height_by_id_record in Hh by done. injection Hh as <-.
    rewrite record_payload_by_id_record by (done || apply PutUint64_length).
    rewrite (unmarshal_marshal_tx _ Hlaws _ _ Hmt). reflexivity.
Qed.

(** C8 (GetByTxID error discrimination): on a store that lets the read
    through, [GetByTxID] returns the not-found error of the store when
    there is no by-ID record, a corruption error other than not-found
    when the record has fewer than 8 bytes, and otherwise decodes the
    first 8 bytes as the big-endian height, then the length-prefixed
    payload, then the transaction through the codec, and returns the
    transaction with the height (or the codec's error). *)
Theorem GetByTxID_discriminates (txID : bytes) (db : versiondb) :
  scheduled db = None →
  match byID (current db) !! txID with
  | None => (GetByTxID codec txID db).1 = Err ErrNotFound
  | Some v =>
      if decide (length v < 8)%nat
      then (GetByTxID codec txID db).1 = Err (ErrEntryTooShort (length v))
           ∧ ErrEntryTooShort (length v) ≠ ErrNotFound
      else ∃ h, record_height v = Some h ∧
           (GetByTxID codec txID db).1
           = match UnmarshalTx codec (record_payload v) with
             | inr tx => Ok (tx, h)
             | inl msg => Err (ErrCodec msg)
             end
  end.
Proof.
  intros Hs.
  destruct (byID (current db) !! txID) as [v|] eqn:Hl.
  - destruct (decide (length v < 8)%nat) as [Hshort|Hlong].
    + split; [|discriminate].
      destruct (Get_scheduled acceptedAtomicTxDB txID db Hs) as (db1 & _ & Hg).
      simpl in Hg. rewrite Hl in Hg.
      unfold GetByTxID. rewrite (bind_eq _ _ _ _ _ Hg).
      rewrite decide_True by (unfold LongLen; lia). reflexivity.
    + apply GetByTxID_record; [done|done|unfold LongLen; lia].
  - destruct (Get_scheduled acceptedAtomicTxDB txID db Hs) as (db1 & _ & Hg).
    simpl in Hg. rewrite Hl in Hg.
    unfold GetByTxID, mbind, M_bind. rewrite Hg. reflexivity.
Qed.

(** The two decoding expressions on the by-ID record that [indexTxByID]
    stores for a transaction whose serialization fits the 4-byte length
    prefix: dropping the first 8 + 4 bytes and unpacking the height and
    then the bytes give the same payload, the serialization of the
    transaction. *)
Theorem decoders_agree (heightBytes : bytes) (tx : Tx) (db db' : versiondb) :
  length heightBytes = LongLen →
  (∀ b, MarshalTx codec tx = inr b → Z.of_nat (length b) < 2 ^ 32) →
  indexTxByID ID codec heightBytes tx db = (Ok tt, db') →
  ∃ iterValue txBytes,
    byID (current db') !! ID tx = Some iterValue ∧
    MarshalTx codec tx = inr txBytes ∧
    slice_from iterValue (LongLen + IntLen) db' = (Ok txBytes, db') ∧
    (Packer.UnpackBytes (Packer.UnpackLong (Packer.of_bytes iterValue)).2).1
    = txBytes.
Proof.
  intros Hh Hsize H.
  apply indexTxByID_Ok in H as (txBytes & Hm & Hc & _); [|done].
  exists (by_id_record heightBytes txBytes), txBytes.
  assert (Hlen : (LongLen + IntLen ≤ length (by_id_record heightBytes txBytes))%nat).
  { unfold by_id_record. rewrite !length_app, Hh, PutUint32_length. lia. }
  split; [rewrite Hc; simpl; apply lookup_insert_eq|].
  split; [done|]. split.
  - unfold slice_from. rewrite decide_True by done.
    rewrite drop_by_id_record by done. reflexivity.
  - destruct (UnpackLong_of_bytes (by_id_record heightBytes txBytes))
      as (h & _ & ->); [lia|].
    cbn [snd]. rewrite UnpackBytes_after_long.
    apply record_payload_by_id_record; auto.
Qed.

Lemma attempt_Ok {A} (m : M A) (r : error + A) (db db' : versiondb) :
  attempt m db = (Ok r, db') →
  match r with
  | inl e => m db = (Err e, db')
  | inr a => m db = (Ok a, db')
  end.
Proof.
  unfold attempt. destruct (m db) as [[a|e|] db1]; intros H;
    try discriminate; injection H as <- <-; reflexivity.
Qed.

Lemma attempt_same_content {A} (m : M A) (db : versiondb) :
  same_content db (m db).2 → same_content db (attempt m db).2.
Proof.
  unfold attempt. destruct (m db) as [[a|e|] db1]; done.
Qed.

Lemma getByHeightBytes_same_content (heightBytes : bytes) (db : versiondb) :
  same_content db (getByHeightBytes codec heightBytes db).2.
Proof.
  unfold getByHeightBytes, mbind, M_bind.
  pose proof (@Get_same_content acceptedAtomicTxByHeightDB heightBytes db) as Hc.
  destruct (Get _ _ db) as [[v|e|] db1]; try done.
  unfold ExtractAtomicTxsBatch, codec_call.
  destruct (UnmarshalTxs codec v); done.
Qed.


(** [addTxToHeightIndex] appends: when it returns without error, the
    record of the height is the serialization of the batch it found
    followed by the transaction, whether or not the batch already had
    a transaction with that identifier. *)
Lemma addTxToHeightIndex_Ok (heightBytes : bytes) (tx : Tx) (db db' : versiondb) :
  addTxToHeightIndex ID codec heightBytes tx db = (Ok tt, db') →
  ∃ txs txsBytes,
    existing_batch codec heightBytes db = Some txs ∧
    MarshalTxs codec (txs ++ [tx]) = inr txsBytes ∧
    current db' = space_put acceptedAtomicTxByHeightDB heightBytes txsBytes
                    (current db) ∧
    committed db' = committed db.
Proof.
  intros H. unfold addTxToHeightIndex in H.
  apply bind_Ok in H as (r & db1 & Ha & H).
  pose proof (getByHeightBytes_same_content heightBytes db) as [Hc1 Hc2].
  apply attempt_Ok in Ha. unfold existing_batch.
  destruct r as [e|txs]; rewrite Ha in *; simpl in *.
  - destruct (decide (e ≠ ErrNotFound)) as [Hne|Heq]; [discriminate|].
    apply indexTxsAtHeight_Ok in H as (b & Hm & Hc & Hd).
    exists [], b. rewrite decide_True by (by destruct (decide (e = ErrNotFound))).
    rewrite Hc, Hd, Hc1, Hc2. done.
  - apply indexTxsAtHeight_Ok in H as (b & Hm & Hc & Hd).
    exists txs, b. rewrite Hc, Hd, Hc1, Hc2. done.
Qed.

(** The checkpoint of one run of the body of the migration loop: the
    byte counter grows by the size of the entry's payload, and if it
    then exceeds the cap of 10 MiB the progress marker becomes the
    identifier of the transaction just processed, the store is committed
    and the counter is back to zero; otherwise the marker and the
    committed content stay as they were. *)
Theorem indexEntry_checkpoints (it : Iterator) (pending pending' : Z)
    (db db' : versiondb) :
  indexEntry ID codec it pending db = (Ok pending', db') →
  commitSizeCap = 10 * 1024 * 1024 ∧
  ∃ txBytes tx,
    txBytes = drop (LongLen + IntLen) (iter_Value it) ∧
    UnmarshalTx codec txBytes = inr tx ∧
    if decide (pending + Z.of_nat (length txBytes) > commitSizeCap)
    then marker (current db') = Some (ID tx) ∧
         committed db' = current db' ∧
         pending' = 0
    else pending' = pending + Z.of_nat (length txBytes) ∧
         marker (current db') = marker (current db) ∧
         committed db' = committed db.
Proof.
  intros H. split; [reflexivity|].
  unfold indexEntry in H. destruct (iter_Error it); [discriminate|].
  apply bind_Ok in H as (heightBytes & db1 & Hs1 & H).
  unfold slice_to in Hs1. destruct (decide _); [|discriminate].
  injection Hs1 as <- <-.
  apply bind_Ok in H as (txBytes & db2 & Hs2 & H).
  unfold slice_from in Hs2. destruct (decide _); [|discriminate].
  injection Hs2 as <- <-.
  apply bind_Ok in H as (tx & db3 & Hx & H).
  apply codec_call_Ok in Hx as [Hx ->].
  apply bind_Ok in H as ([] & db4 & Hadd & H).
  apply addTxToHeightIndex_Ok in Hadd as (txs & b & _ & _ & Hc & Hd).
  eexists _, tx. split; [reflexivity|]. split; [exact Hx|].
  destruct (decide (_ > commitSizeCap)).
  - apply bind_Ok in H as ([] & db5 & Hput & H).
    apply bind_Ok in H as ([] & db6 & Hcommit & H).
    injection H as <- <-.
    apply Put_Ok in Hput as [Hp _]. apply Commit_Ok in Hcommit as [Hk1 Hk2].
    rewrite Hk1, Hk2, Hp. split; [apply marker_space_put|done].
  - injection H as <- <-. rewrite Hc, Hd. done.
Qed.

Lemma completeMigration_Ok (lastAcceptedHeight : Z) (db db' : versiondb) :
  completeMigration lastAcceptedHeight db = (Ok tt, db') →
  marker (current db') = Some (PutUint64 lastAcceptedHeight) ∧
  committed db' = current db'.
Proof.
  intros H. unfold completeMigration in H.
  apply bind_Ok in H as ([] & db1 & Hput & Hcommit).
  apply Put_Ok in Hput as [Hp _]. apply Commit_Ok in Hcommit as [Hk1 Hk2].
  rewrite Hk1, Hk2, Hp. split; [apply marker_space_put|done].
Qed.

Lemma runMigration_Ok (lastTxID : bytes) (lastAcceptedHeight : Z)
    (db db' : versiondb) :
  runMigration ID codec lastTxID lastAcceptedHeight db = (Ok tt, db') →
  (∃ it db1,
     migrate ID codec (NewIteratorWithStart acceptedAtomicTxDB lastTxID db) 0 db
     = (Ok it, db1)) ∧
  marker (current db') = Some (PutUint64 lastAcceptedHeight) ∧
  committed db' = current db'.
Proof.
  intros H. unfold runMigration in H.
  apply bind_Ok in H as (it & db1 & Hm & Hc).
  apply completeMigration_Ok in Hc. split; [eauto|done].
Qed.

(** C7 (migration completion marker): when [initialize] runs the
    migration (the marker it reads is not an 8-byte value) and returns
    nil, the scan of the by-ID space has finished without error, the
    progress marker is the 8-byte big-endian encoding of the supplied
    [lastAcceptedHeight] and the store is committed. *)
Theorem initialize_completes (lastAcceptedHeight : Z) (db db' : versiondb) :
  (∀ v, marker (current db) = Some v → length v ≠ LongLen) →
  initialize ID codec lastAcceptedHeight db = (Ok tt, db') →
  (∃ lastTxID db0 it db1,
     same_content db db0 ∧
     migrate ID codec (NewIteratorWithStart acceptedAtomicTxDB lastTxID db0) 0 db0
     = (Ok it, db1)) ∧
  marker (current db') = Some (PutUint64 lastAcceptedHeight) ∧
  length (PutUint64 lastAcceptedHeight) = 8%nat ∧
  committed db' = current db'.
Proof.
  intros Hnot8 H. unfold initialize in H.
  apply bind_Ok in H as (r & db0 & Ha & H).
  pose proof (@Get_same_content rootDB maxIndexedHeightKey db) as Hsame.
  apply attempt_Ok in Ha. destruct r as [e|v]; rewrite Ha in Hsame; simpl in Hsame.
  - destruct (decide (e ≠ ErrNotFound)); [discriminate|].
    apply runMigration_Ok in H as ((it & db1 & Hm) & Hmk & Hc).
    split; [exists [], db0, it, db1; done|done].
  - apply Get_Ok in Ha as [Hl _].
    destruct (decide (length v = LongLen)) as [Hlen|_]; [by apply Hnot8 in Hl|].
    destruct (decide (length v = HashLength)); [|discriminate].
    apply runMigration_Ok in H as ((it & db1 & Hm) & Hmk & Hc).
    split; [exists v, db0, it, db1; done|done].
Qed.

(** C5 (idempotent no-op migration): when the progress marker already
    holds an 8-byte value, [initialize] returns nil at once and leaves
    every key space as it was, staged and committed. *)
Theorem initialize_noop (lastAcceptedHeight : Z) (v : bytes) (db : versiondb) :
  scheduled db = None →
  marker (current db) = Some v →
  length v = 8%nat →
  ∃ db', initialize ID codec lastAcceptedHeight db = (Ok tt, db') ∧
         current db' = current db ∧ committed db' = committed db.
Proof.
  intros Hs Hm Hlen.
  destruct (Get_scheduled rootDB maxIndexedHeightKey db Hs) as (db1 & Hc & Hg).
  simpl in Hg. unfold marker in Hm. rewrite Hm in Hg.
  exists db1. split; [|exact Hc].
  unfold initialize, mbind, M_bind, attempt. rewrite Hg.
  rewrite decide_True by done. reflexivity.
Qed.

(** C4 (marker corruption detection): when the stored progress marker
    has a length other than 8 and other than the identifier width 32,
    construction fails with the corruption error for that value, and no
    migration is started: the store is left as it was. *)
Theorem initialize_rejects_corrupt_marker (lastAcceptedHeight : Z) (v : bytes)
    (db : versiondb) :
  scheduled db = None →
  marker (current db) = Some v →
  length v ≠ 8%nat →
  length v ≠ 32%nat →
  ∃ db', NewAtomicTxRepository ID codec lastAcceptedHeight db
         = (Err (ErrInvalidIndexHeight v), db') ∧
         ErrInvalidIndexHeight v ≠ ErrNotFound ∧
         current db' = current db ∧ committed db' = committed db.
Proof.
  intros Hs Hm Hne8 Hne32.
  destruct (Get_scheduled rootDB maxIndexedHeightKey db Hs) as (db1 & Hc & Hg).
  simpl in Hg. unfold marker in Hm. rewrite Hm in Hg.
  exists db1. split; [|split; [discriminate|exact Hc]].
  unfold NewAtomicTxRepository, initialize, mbind, M_bind, attempt. rewrite Hg.
  rewrite decide_False by done. rewrite decide_False by done. reflexivity.
Qed.

(** When the scan has finished without error and the store has no
    failure left to report, the migration does return nil. *)
Lemma runMigration_returns (lastTxID : bytes) (lastAcceptedHeight : Z)
    (db db1 : versiondb) (it : Iterator) :
  migrate ID codec (NewIteratorWithStart acceptedAtomicTxDB lastTxID db) 0 db
  = (Ok it, db1) →
  faults db1 = [] →
  ∃ db', runMigration ID codec lastTxID lastAcceptedHeight db = (Ok tt, db') ∧
         marker (current db') = Some (PutUint64 lastAcceptedHeight) ∧
         committed db' = current db'.
Proof.
  intros Hm Hf.
  assert (Hrun : ∃ db', runMigration ID codec lastTxID lastAcceptedHeight db
                        = (Ok tt, db')).
  { unfold runMigration. rewrite (bind_eq _ _ _ _ _ Hm).
    destruct db1 as [cur com fs]. simpl in Hf. subst fs.
    unfold completeMigration, Put, Commit, mbind, M_bind, tick, stage, flush.
    simpl. eauto. }
  destruct Hrun as [db' Hrun]. exists db'. split; [done|].
  by apply runMigration_Ok in Hrun as (_ & ? & ?).
Qed.

(** The loop of [initialize], one turn at a time. *)
Lemma migrate_turn (it : Iterator) (pending : Z) (db : versiondb) :
  migrate ID codec it pending db
  = match iter_Next it db with
    | (true, it1, db1) =>
        match indexEntry ID codec it1 pending db1 with
        | (Ok pending1, db2) => migrate ID codec it1 pending1 db2
        | (Err e, db2) => (Err e, db2)
        | (Panic, db2) => (Panic, db2)
        end
    | (false, it1, db1) => (Ok it1, db1)
    end.
Proof.
  rewrite migrate_equation_1.
  destruct (inspect (iter_Next it db)) as [[[more it1] db1] Heq].
  symmetry. etransitivity; [rewrite Heq; reflexivity|]. symmetry.
  destruct more; simpl.
  - destruct (indexEntry ID codec it1 pending db1) as [[p|e|] db2]; reflexivity.
  - reflexivity.
Qed.

(** When the iterator stops on a failure of the store ([Next] false,
    the failure in [Error]), the loop ends as if the key space were
    exhausted: it returns no error, and the failure stays in the
    iterator. *)
Lemma migrate_stops_on_failure (it : Iterator) (pending : Z) (db db1 : versiondb)
    (e : error) :
  it_err it = None →
  tick db = (Err e, db1) →
  migrate ID codec it pending db
  = (Ok {| it_rest := []; it_cur := None; it_err := Some e |}, db1).
Proof.
  intros Hi Ht. rewrite migrate_turn.
  unfold iter_Next. rewrite Hi, Ht. reflexivity.
Qed.

(** So a migration whose iterator stops this way on its first call,
    the store accepting the writes that follow, still writes the
    completion marker and returns nil without having indexed
    anything. *)
Lemma runMigration_misses_failure (lastTxID : bytes) (lastAcceptedHeight : Z)
    (db db1 : versiondb) (e : error) :
  tick db = (Err e, db1) →
  faults db1 = [] →
  ∃ db', runMigration ID codec lastTxID lastAcceptedHeight db = (Ok tt, db') ∧
         marker (current db') = Some (PutUint64 lastAcceptedHeight) ∧
         committed db' = current db' ∧
         byHeight (current db') = byHeight (current db).
Proof.
  intros Ht Hf.
  pose proof (tick_same_content db) as [Hc _]. rewrite Ht in Hc. simpl in Hc.
  pose proof (migrate_stops_on_failure
                (NewIteratorWithStart acceptedAtomicTxDB lastTxID db) 0 db db1 e
                eq_refl Ht) as Hm.
  destruct db1 as [cur com fs]. simpl in Hf, Hc. subst fs cur.
  eexists. split.
  - unfold runMigration. rewrite (bind_eq _ _ _ _ _ Hm).
    unfold completeMigration, Put, Commit, mbind, M_bind, tick, stage, flush.
    simpl. reflexivity.
  - simpl. split; [apply marker_space_put|done].
Qed.

End RepositoryProperties.

(** ** The sample instance *)

Lemma Sample_codec_laws : codec_laws Sample.codec.
Proof.
  split.
  - intros tx b [= <-]. reflexivity.
  - intros txs b [= <-]. reflexivity.
  - intros tx b [= <-]. simpl. lia.
Qed.

Lemma Sample_ID_inj (t1 t2 : Sample.Tx) : Sample.ID t1 = Sample.ID t2 → t1 = t2.
Proof.
  unfold Sample.ID. intros H. apply app_inv_head in H. by injection H.
Qed.

(** C2 (migration dedup skip), on the code: merging [A] into the record
    of height 1, whose batch is already [[A]], does not skip: the call
    returns nil and the batch of the height is then [[A; A]]. *)
Theorem addTxToHeightIndex_appends_duplicate :
  (getByHeightBytes Sample.codec (PutUint64 1) Sample.heightOne).1
  = Ok [Sample.A] ∧
  (addTxToHeightIndex Sample.ID Sample.codec (PutUint64 1) Sample.A
     Sample.heightOne).1 = Ok tt ∧
  (getByHeightBytes Sample.codec (PutUint64 1)
     (addTxToHeightIndex Sample.ID Sample.codec (PutUint64 1) Sample.A
        Sample.heightOne).2).1
  = Ok [Sample.A; Sample.A].
Proof. vm_compute. done. Qed.

(** C3 (migration aborts on iterator error), on the code: on a store in
    the previous format whose iterator fails on its first call, so that
    [Next] is false and [Error] is the failure of the store, the loop of
    [initialize] ends without looking at the error; [initialize] returns
    nil, writes and commits the 8-byte completion marker, and no height
    has been indexed. *)
Theorem initialize_misses_iterator_error :
  (let it := NewIteratorWithStart acceptedAtomicTxDB [] Sample.closing in
   let db0 := (Get rootDB maxIndexedHeightKey Sample.closing).2 in
   length (it_rest it) = 3%nat ∧
   (iter_Next it db0).1.1 = false ∧
   iter_Error (iter_Next it db0).1.2 = Some ErrClosed) ∧
  (initialize Sample.ID Sample.codec 3 Sample.closing).1 = Ok tt ∧
  marker (current (initialize Sample.ID Sample.codec 3 Sample.closing).2)
  = Some (PutUint64 3) ∧
  marker (committed (initialize Sample.ID Sample.codec 3 Sample.closing).2)
  = Some (PutUint64 3) ∧
  map_to_list
    (byHeight (current (initialize Sample.ID Sample.codec 3 Sample.closing).2))
  = [].
Proof. vm_compute. done. Qed.

(** ** The statements on the sample instance *)

Lemma Write_round_trip_witness :
  let db' := (Write Sample.ID Sample.codec 10 [Sample.A; Sample.B] Sample.emptyDB).2 in
  (∃ l, (GetByHeight Sample.codec 10 db').1 = Ok l ∧
        (list_to_set (Sample.ID <$> l) : gset bytes)
        = list_to_set (Sample.ID <$> [Sample.A; Sample.B])) ∧
  (∀ tx, tx ∈ [Sample.A; Sample.B] →
         (GetByTxID Sample.codec (Sample.ID tx) db').1 = Ok (tx, 10)).
Proof.
  intros db'.
  apply (Write_round_trip Sample.ID Sample.codec 10 [Sample.A; Sample.B]
           Sample.emptyDB db').
  - exact Sample_codec_laws.
  - lia.
  - intros t1 t2 _ _. apply Sample_ID_inj.
  - vm_compute. reflexivity.
  - vm_compute. reflexivity.
Defined.

Lemma Write_sets_marker_witness :
  marker (current (Write Sample.ID Sample.codec 10 [Sample.A; Sample.B]
                     Sample.emptyDB).2)
  = Some (PutUint64 10) ∧ length (PutUint64 10) = 8%nat.
Proof.
  apply (Write_sets_marker Sample.ID Sample.codec 10 [Sample.A; Sample.B]
           Sample.emptyDB).
  vm_compute. reflexivity.
Defined.

Lemma GetByTxID_discriminates_witness :
  scheduled Sample.written = None ∧
  match byID (current Sample.written) !! Sample.ID Sample.C with
  | None => (GetByTxID Sample.codec (Sample.ID Sample.C) Sample.written).1
            = Err ErrNotFound
  | Some v =>
      if decide (length v < 8)%nat
      then (GetByTxID Sample.codec (Sample.ID Sample.C) Sample.written).1
           = Err (ErrEntryTooShort (length v))
           ∧ ErrEntryTooShort (length v) ≠ ErrNotFound
      else ∃ h, record_height v = Some h ∧
           (GetByTxID Sample.codec (Sample.ID Sample.C) Sample.written).1
           = match UnmarshalTx Sample.codec (record_payload v) with
             | inr tx => Ok (tx, h)
             | inl msg => Err (ErrCodec msg)
             end
  end.
Proof.
  split; [reflexivity|].
  apply (GetByTxID_discriminates Sample.codec (Sample.ID Sample.C) Sample.written).
  reflexivity.
Defined.

Lemma decoders_agree_witness :
  let db' := (indexTxByID Sample.ID Sample.codec (PutUint64 2) Sample.C
                Sample.emptyDB).2 in
  ∃ iterValue txBytes,
    byID (current db') !! Sample.ID Sample.C = Some iterValue ∧
    MarshalTx Sample.codec Sample.C = inr txBytes ∧
    slice_from iterValue (LongLen + IntLen) db' = (Ok txBytes, db') ∧
    (Packer.UnpackBytes (Packer.UnpackLong (Packer.of_bytes iterValue)).2).1
    = txBytes.
Proof.
  intros db'.
  apply (decoders_agree Sample.ID Sample.codec (PutUint64 2) Sample.C
           Sample.emptyDB db').
  - reflexivity.
  - intros b [= <-]. simpl. lia.
  - vm_compute. reflexivity.
Defined.

Lemma indexEntry_checkpoints_witness :
  let db' := (indexEntry Sample.ID Sample.codec Sample.atEntryA commitSizeCap
                Sample.emptyDB).2 in
  commitSizeCap = 10 * 1024 * 1024 ∧
  ∃ txBytes tx,
    txBytes = drop (LongLen + IntLen) (iter_Value Sample.atEntryA) ∧
    UnmarshalTx Sample.codec txBytes = inr tx ∧
    if decide (commitSizeCap + Z.of_nat (length txBytes) > commitSizeCap)
    then marker (current db') = Some (Sample.ID tx) ∧
         committed db' = current db' ∧
         0 = 0
    else 0 = commitSizeCap + Z.of_nat (length txBytes) ∧
         marker (current db') = marker (current Sample.emptyDB) ∧
         committed db' = committed Sample.emptyDB.
Proof.
  intros db'.
  apply (indexEntry_checkpoints Sample.ID Sample.codec Sample.atEntryA
           commitSizeCap 0 Sample.emptyDB db').
  vm_compute. reflexivity.
Defined.

Lemma initialize_completes_witness :
  let db' := (initialize Sample.ID Sample.codec 3 Sample.legacy).2 in
  (∃ lastTxID db0 it db1,
     same_content Sample.legacy db0 ∧
     migrate Sample.ID Sample.codec
       (NewIteratorWithStart acceptedAtomicTxDB lastTxID db0) 0 db0
     = (Ok it, db1)) ∧
  marker (current db') = Some (PutUint64 3) ∧
  length (PutUint64 3) = 8%nat ∧
  committed db' = current db'.
Proof.
  intros db'.
  apply (initialize_completes Sample.ID Sample.codec 3 Sample.legacy db').
  - intros v Hv. vm_compute in Hv. discriminate.
  - vm_compute. reflexivity.
Defined.

Lemma initialize_noop_witness :
  ∃ db', initialize Sample.ID Sample.codec 9 Sample.migrated = (Ok tt, db') ∧
         current db' = current Sample.migrated ∧
         committed db' = committed Sample.migrated.
Proof.
  apply (initialize_noop Sample.ID Sample.codec 9 (PutUint64 7) Sample.migrated).
  - reflexivity.
  - vm_compute. reflexivity.
  - reflexivity.
Defined.

Lemma initialize_rejects_corrupt_marker_witness :
  ∃ db', NewAtomicTxRepository Sample.ID Sample.codec 9 Sample.corrupt
         = (Err (ErrInvalidIndexHeight [Byte.x01]), db') ∧
         ErrInvalidIndexHeight [Byte.x01] ≠ ErrNotFound ∧
         current db' = current Sample.corrupt ∧
         committed db' = committed Sample.corrupt.
Proof.
  apply (initialize_rejects_corrupt_marker Sample.ID Sample.codec 9 [Byte.x01]
           Sample.corrupt).
  - reflexivity.
  - vm_compute. reflexivity.
  - simpl. lia.
  - simpl. lia.
Defined.

(** * Further properties *)

(** ** More on the monad and the store *)

Lemma bind_Err {A B} (m : M A) (f : A → M B) (db db' : versiondb) (e : error) :
  (m ≫= f) db = (Err e, db') →
  m db = (Err e, db') ∨ ∃ a db1, m db = (Ok a, db1) ∧ f a db1 = (Err e, db').
Proof.
  unfold mbind, M_bind. destruct (m db) as [[a|e'|] db1]; intros H.
  - right. exists a, db1. done.
  - left. injection H as -> ->. reflexivity.
  - discriminate.
Qed.

Lemma preserves_bind {A B} (R : versiondb → versiondb → Prop)
    (m : M A) (f : A → M B) :
  (∀ x y z, R x y → R y z → R x z) →
  preserves R m → (∀ a, preserves R (f a)) → preserves R (m ≫= f).
Proof.
  intros Htrans Hm Hf db. unfold mbind, M_bind.
  specialize (Hm db). destruct (m db) as [[a|e|] db1]; simpl in *; try done.
  eapply Htrans; [exact Hm|apply Hf].
Qed.

Lemma preserves_ret {A} (R : versiondb → versiondb → Prop) (a : A) :
  (∀ x, R x x) → preserves R (mret a).
Proof. intros Hrefl db. apply Hrefl. Qed.

Lemma preserves_fail {A} (R : versiondb → versiondb → Prop) (e : error) :
  (∀ x, R x x) → preserves R (@fail A e).
Proof. intros Hrefl db. apply Hrefl. Qed.

Lemma preserves_codec_call {A} (R : versiondb → versiondb → Prop) (r : string + A) :
  (∀ x, R x x) → preserves R (codec_call r).
Proof. intros Hrefl db. unfold codec_call. destruct r; apply Hrefl. Qed.

Lemma preserves_attempt {A} (R : versiondb → versiondb → Prop) (m : M A) :
  preserves R m → preserves R (attempt m).
Proof.
  intros Hm db. specialize (Hm db). unfold attempt.
  destruct (m db) as [[a|e|] db1]; done.
Qed.

Lemma same_committed_trans x y z :
  same_committed x y → same_committed y z → same_committed x z.
Proof. unfold same_committed. congruence. Qed.

Lemma same_space_trans sp x y z :
  same_space sp x y → same_space sp y z → same_space sp x z.
Proof. unfold same_space. congruence. Qed.

Lemma preserves_tick_content : preserves same_content tick.
Proof. intros db. apply tick_same_content. Qed.

Lemma preserves_Get_content (sp : space) (k : bytes) :
  preserves same_content (Get sp k).
Proof. intros db. apply Get_same_content. Qed.

(** A [Put] stages at most the one key, in its own key space, and
    commits nothing. *)
Lemma Put_effect (sp : space) (k v : bytes) (db : versiondb) :
  match (Put sp k v db).1 with
  | Ok _ => current (Put sp k v db).2 = space_put sp k v (current db)
  | _ => current (Put sp k v db).2 = current db
  end ∧ committed (Put sp k v db).2 = committed db.
Proof.
  unfold Put, mbind, M_bind, stage.
  pose proof (tick_same_content db) as [Hc Hd].
  destruct (tick db) as [[[]|e|] db1]; simpl in *; rewrite ?Hc, ?Hd; done.
Qed.

Lemma space_of_put_ne (sp sp' : space) (k v : bytes) (vw : View) :
  sp ≠ sp' → space_of sp' (space_put sp k v vw) = space_of sp' vw.
Proof. destruct sp, sp'; done. Qed.

Lemma space_of_put_eq (sp : space) (k v : bytes) (vw : View) :
  space_of sp (space_put sp k v vw) = <[k := v]> (space_of sp vw).
Proof. destruct sp; done. Qed.

Lemma preserves_Put_committed (sp : space) (k v : bytes) :
  preserves same_committed (Put sp k v).
Proof. intros db. apply Put_effect. Qed.

Lemma preserves_Put_space (sp sp' : space) (k v : bytes) :
  sp ≠ sp' → preserves (same_space sp') (Put sp k v).
Proof.
  intros Hne db. unfold same_space.
  destruct (Put_effect sp k v db) as [Hc _].
  destruct (Put sp k v db).1; rewrite Hc; try done.
  by apply space_of_put_ne.
Qed.

(** The store with no failure left to report. *)
Lemma tick_fault_free (db : versiondb) : faults db = [] → tick db = (Ok tt, db).
Proof. unfold tick. intros ->. reflexivity. Qed.

Lemma Get_fault_free (sp : space) (k : bytes) (db : versiondb) :
  faults db = [] →
  Get sp k db = (match space_of sp (current db) !! k with
                 | Some v => Ok v
                 | None => Err ErrNotFound
                 end, db).
Proof.
  intros Hf. unfold Get. rewrite (bind_eq _ _ _ _ _ (tick_fault_free db Hf)).
  unfold lookup_current. destruct (_ !! _); reflexivity.
Qed.

Lemma Put_fault_free (sp : space) (k v : bytes) (db : versiondb) :
  faults db = [] →
  Put sp k v db = (Ok tt, {| current := space_put sp k v (current db);
                             committed := committed db; faults := [] |}).
Proof.
  intros Hf. unfold Put. rewrite (bind_eq _ _ _ _ _ (tick_fault_free db Hf)).
  unfold stage. rewrite Hf. reflexivity.
Qed.

Lemma Commit_fault_free (db : versiondb) :
  faults db = [] →
  Commit db = (Ok tt, {| current := current db; committed := current db;
                         faults := [] |}).
Proof.
  intros Hf. unfold Commit. rewrite (bind_eq _ _ _ _ _ (tick_fault_free db Hf)).
  unfold flush. rewrite Hf. reflexivity.
Qed.

Lemma PutUint64_inj (a b : Z) :
  0 <= a < 2 ^ 64 → 0 <= b < 2 ^ 64 → PutUint64 a = PutUint64 b → a = b.
Proof.
  intros Ha Hb Heq.
  pose proof (Uint64_PutUint64 a [] Ha) as H1.
  pose proof (Uint64_PutUint64 b [] Hb) as H2.
  rewrite Heq in H1. congruence.
Qed.

(** ** GetIndexHeight *)

(** X2 (GetIndexHeight, error cases): on a read the store lets through,
    [GetIndexHeight] returns the not-found error of the store when there
    is no marker, and its unexpected-length error, with the length, when
    the marker is not 8 bytes long, as is the 32-byte cursor of a
    migration in progress. *)
Theorem GetIndexHeight_errors (db : versiondb) :
  scheduled db = None →
  match marker (current db) with
  | None => (GetIndexHeight db).1 = Err ErrNotFound
  | Some v =>
      length v ≠ 8%nat → (GetIndexHeight db).1 = Ok (UnexpectedLength (length v))
  end.
Proof.
  intros Hs.
  destruct (Get_scheduled rootDB maxIndexedHeightKey db Hs) as (db1 & _ & Hg).
  simpl in Hg. unfold marker.
  destruct (root (current db) !! maxIndexedHeightKey) as [v|].
  - intros Hlen. unfold GetIndexHeight. rewrite (bind_eq _ _ _ _ _ Hg).
    rewrite decide_True by done. reflexivity.
  - unfold GetIndexHeight, mbind, M_bind. rewrite Hg. reflexivity.
Qed.

Lemma GetIndexHeight_marker (h : Z) (db : versiondb) :
  0 <= h < 2 ^ 64 →
  scheduled db = None →
  marker (current db) = Some (PutUint64 h) →
  (GetIndexHeight db).1 = Ok (IndexHeight h).
Proof.
  intros Hh Hs Hm.
  destruct (Get_scheduled rootDB maxIndexedHeightKey db Hs) as (db1 & _ & Hg).
  simpl in Hg. unfold marker in Hm. rewrite Hm in Hg.
  unfold GetIndexHeight. rewrite (bind_eq _ _ _ _ _ Hg).
  rewrite decide_False by (intros Hne; apply Hne; reflexivity).
  pose proof (Uint64_PutUint64 h [] Hh) as Hu. rewrite app_nil_r in Hu.
  rewrite Hu. reflexivity.
Qed.

(** ** Reads and writes of the repository *)

Section MoreRepositoryProperties.

Context {Tx : Type}.
Variable ID : Tx → bytes.
Variable codec : codec_Manager Tx.

Lemma preserves_indexTxByID (R : versiondb → versiondb → Prop)
    (heightBytes : bytes) (tx : Tx) :
  (∀ x, R x x) →
  (∀ k v, preserves R (Put acceptedAtomicTxDB k v)) →
  preserves R (indexTxByID ID codec heightBytes tx).
Proof.
  intros Hrefl Hput db. unfold indexTxByID, mbind, M_bind, codec_call.
  destruct (MarshalTx codec tx) as [msg|b]; simpl; [apply Hrefl|apply Hput].
Qed.

Lemma preserves_indexTxsByID (R : versiondb → versiondb → Prop)
    (heightBytes : bytes) (txs : list Tx) :
  (∀ x, R x x) → (∀ x y z, R x y → R y z → R x z) →
  (∀ k v, preserves R (Put acceptedAtomicTxDB k v)) →
  preserves R (indexTxsByID ID codec heightBytes txs).
Proof.
  intros Hrefl Htrans Hput. induction txs as [|tx txs IH]; simpl.
  - by apply preserves_ret.
  - apply preserves_bind; [done| |done].
    by apply preserves_indexTxByID.
Qed.

Lemma preserves_indexTxsAtHeight (R : versiondb → versiondb → Prop)
    (heightBytes : bytes) (txs : list Tx) :
  (∀ x, R x x) →
  (∀ k v, preserves R (Put acceptedAtomicTxByHeightDB k v)) →
  preserves R (indexTxsAtHeight codec heightBytes txs).
Proof.
  intros Hrefl Hput db. unfold indexTxsAtHeight, mbind, M_bind, codec_call.
  destruct (MarshalTxs codec txs) as [msg|b]; simpl; [apply Hrefl|apply Hput].
Qed.

Lemma preserves_getByHeightBytes (heightBytes : bytes) :
  preserves same_content (getByHeightBytes codec heightBytes).
Proof. intros db. apply getByHeightBytes_same_content. Qed.

(** X3 (reads are read-only): whatever they return, [GetByTxID],
    [GetByHeight] and [GetIndexHeight] leave the content of the store,
    staged and committed, as it was. *)
Theorem reads_leave_content (txID : bytes) (height : Z) (db : versiondb) :
  same_content db (GetByTxID codec txID db).2 ∧
  same_content db (GetByHeight codec height db).2 ∧
  same_content db (GetIndexHeight db).2.
Proof.
  split; [|split].
  - unfold GetByTxID.
    apply (preserves_bind same_content); [apply same_content_trans| |].
    + apply preserves_Get_content.
    + intros v. destruct (decide _); [apply preserves_fail, same_content_refl|].
      destruct (Packer.UnpackLong _) as [h p].
      destruct (Packer.UnpackBytes _) as [b p'].
      apply (preserves_bind same_content); [apply same_content_trans| |].
      * apply preserves_codec_call, same_content_refl.
      * intros tx. apply preserves_ret, same_content_refl.
  - apply getByHeightBytes_same_content.
  - unfold GetIndexHeight.
    apply (preserves_bind same_content); [apply same_content_trans| |].
    + apply preserves_Get_content.
    + intros v. destruct (decide _); [apply preserves_ret, same_content_refl|].
      destruct (Uint64 v); [apply preserves_ret, same_content_refl|].
      intros db0. apply same_content_refl.
Qed.

(** X4 (GetByHeight, missing height): on a read the store lets through,
    [GetByHeight] returns the not-found error of the store for a height
    that has no record. *)
Theorem GetByHeight_not_found (height : Z) (db : versiondb) :
  scheduled db = None →
  byHeight (current db) !! PutUint64 height = None →
  (GetByHeight codec height db).1 = Err ErrNotFound.
Proof.
  intros Hs Hl.
  destruct (Get_scheduled acceptedAtomicTxByHeightDB (PutUint64 height) db Hs)
    as (db1 & _ & Hg).
  simpl in Hg. rewrite Hl in Hg.
  unfold GetByHeight, getByHeightBytes, mbind, M_bind. rewrite Hg. reflexivity.
Qed.

(** The whole effect of a [Write] that returns nil. *)
Lemma Write_effect (height : Z) (txs : list Tx) (db db' : versiondb) :
  Write ID codec height txs db = (Ok tt, db') →
  ∃ txsBytes, MarshalTxs codec txs = inr txsBytes ∧
    byHeight (current db')
    = <[PutUint64 height := txsBytes]> (byHeight (current db)) ∧
    root (current db')
    = <[maxIndexedHeightKey := PutUint64 height]> (root (current db)) ∧
    (∀ k, k ∉ ID <$> txs → byID (current db') !! k = byID (current db) !! k) ∧
    committed db' = committed db.
Proof.
  intros H. unfold Write in H.
  apply bind_Ok in H as ([] & db1 & H1 & H).
  apply bind_Ok in H as ([] & db2 & H2 & H3).
  apply indexTxsAtHeight_Ok in H2 as (b & Hm & Hc2 & Hd2).
  apply Put_Ok in H3 as [Hc3 Hd3].
  pose proof (preserves_indexTxsByID (same_space acceptedAtomicTxByHeightDB)
                (PutUint64 height) txs (λ _, eq_refl)
                (same_space_trans _)
                (λ k v, preserves_Put_space acceptedAtomicTxDB
                          acceptedAtomicTxByHeightDB k v ltac:(done)) db) as Hh.
  pose proof (preserves_indexTxsByID (same_space rootDB)
                (PutUint64 height) txs (λ _, eq_refl)
                (same_space_trans _)
                (λ k v, preserves_Put_space acceptedAtomicTxDB rootDB k v
                          ltac:(done)) db) as Hr.
  pose proof (preserves_indexTxsByID same_committed
                (PutUint64 height) txs (λ _, eq_refl)
                same_committed_trans
                (λ k v, preserves_Put_committed _ k v) db) as Hcm.
  rewrite H1 in Hh, Hr, Hcm. unfold same_space, same_committed in *. simpl in *.
  exists b. rewrite Hc3, Hc2. simpl. rewrite Hh, Hr.
  split; [done|]. split; [done|]. split; [done|]. split.
  - intros k Hk.
    apply (indexTxsByID_frame ID codec (PutUint64 height) txs
             (PutUint64_length height) db db1 H1 k Hk).
  - congruence.
Qed.

(** X5 (GetByHeight after Write): when the codec unmarshals the list it
    marshalled and the store lets the read through, [GetByHeight height]
    after a [Write height txs] that returned nil returns exactly [txs]:
    the same transactions in the same order, repetitions included, with
    nothing kept of an earlier record of the height. *)
Theorem GetByHeight_after_Write (height : Z) (txs : list Tx) (db db' : versiondb) :
  (∀ b, MarshalTxs codec txs = inr b → UnmarshalTxs codec b = inr txs) →
  Write ID codec height txs db = (Ok tt, db') →
  scheduled db' = None →
  (GetByHeight codec height db').1 = Ok txs.
Proof.
  intros Hround H Hs.
  apply Write_effect in H as (b & Hm & Hh & _).
  destruct (Get_scheduled acceptedAtomicTxByHeightDB (PutUint64 height) db' Hs)
    as (db1 & _ & Hg).
  simpl in Hg. rewrite Hh, lookup_insert_eq in Hg.
  unfold GetByHeight, getByHeightBytes. rewrite (bind_eq _ _ _ _ _ Hg).
  unfold ExtractAtomicTxsBatch. rewrite (Hround b Hm). reflexivity.
Qed.

(** X1 (GetIndexHeight after Write): after a [Write] at a [uint64]
    height has returned nil, [GetIndexHeight] returns that height, when
    the store lets the read through. *)
Theorem GetIndexHeight_after_Write (height : Z) (txs : list Tx) (db db' : versiondb) :
  0 <= height < 2 ^ 64 →
  Write ID codec height txs db = (Ok tt, db') →
  scheduled db' = None →
  (GetIndexHeight db').1 = Ok (IndexHeight height).
Proof.
  intros Hh H Hs.
  apply Write_effect in H as (b & _ & _ & Hr & _).
  apply GetIndexHeight_marker; [done|done|].
  unfold marker. rewrite Hr. apply lookup_insert_eq.
Qed.

(** X7 (Write, frame): a [Write] at a [uint64] height that returns nil
    leaves the by-height records of the other [uint64] heights and the
    by-ID records of the identifiers outside [txs] as they were. *)
Theorem Write_frame (height : Z) (txs : list Tx) (db db' : versiondb) :
  0 <= height < 2 ^ 64 →
  Write ID codec height txs db = (Ok tt, db') →
  (∀ height', 0 <= height' < 2 ^ 64 → height' ≠ height →
     byHeight (current db') !! PutUint64 height'
     = byHeight (current db) !! PutUint64 height') ∧
  (∀ txID, txID ∉ ID <$> txs →
     byID (current db') !! txID = byID (current db) !! txID).
Proof.
  intros Hh H.
  apply Write_effect in H as (b & _ & Hbh & _ & Hid & _).
  split; [|exact Hid].
  intros h' Hh' Hne. rewrite Hbh. apply lookup_insert_ne.
  intros Heq. apply Hne. symmetry. by apply PutUint64_inj.
Qed.

(** X8 (Write, no transactions): a [Write] of the empty list that
    returns nil touches no by-ID record, and still stores a record for
    the height, the serialization of the empty list, and sets the
    marker. *)
Theorem Write_empty (height : Z) (db db' : versiondb) :
  Write ID codec height [] db = (Ok tt, db') →
  byID (current db') = byID (current db) ∧
  (∃ txsBytes, MarshalTxs codec [] = inr txsBytes ∧
     byHeight (current db') !! PutUint64 height = Some txsBytes) ∧
  marker (current db') = Some (PutUint64 height).
Proof.
  intros H.
  apply Write_effect in H as (b & Hm & Hbh & Hr & Hid & _).
  split; [|split].
  - apply map_eq. intros k. apply Hid. simpl. apply not_elem_of_nil.
  - exists b. split; [done|]. rewrite Hbh. apply lookup_insert_eq.
  - unfold marker. rewrite Hr. apply lookup_insert_eq.
Qed.

(** [Write] never commits. *)
Lemma preserves_Write_committed (height : Z) (txs : list Tx) :
  preserves same_committed (Write ID codec height txs).
Proof.
  unfold Write.
  apply preserves_bind; [apply same_committed_trans| |].
  - apply preserves_indexTxsByID;
      [done|apply same_committed_trans|apply preserves_Put_committed].
  - intros _. apply preserves_bind; [apply same_committed_trans| |].
    + apply preserves_indexTxsAtHeight; [done|apply preserves_Put_committed].
    + intros _. apply preserves_Put_committed.
Qed.

(** X6 (Write, what it never does): [Write] never commits, whatever it
    returns, and when it returns an error the progress marker is the one
    from before the call. *)
Theorem Write_commits_nothing (height : Z) (txs : list Tx) (db : versiondb) :
  committed (Write ID codec height txs db).2 = committed db ∧
  ∀ e, (Write ID codec height txs db).1 = Err e →
       marker (current (Write ID codec height txs db).2) = marker (current db).
Proof.
  split; [apply preserves_Write_committed|].
  intros e. unfold marker, Write, mbind, M_bind.
  pose proof (preserves_indexTxsByID (same_space rootDB)
                (PutUint64 height) txs (λ _, eq_refl)
                (same_space_trans _)
                (λ k v, preserves_Put_space acceptedAtomicTxDB rootDB k v
                          ltac:(done)) db) as H1.
  destruct (indexTxsByID ID codec (PutUint64 height) txs db) as [[[]|e1|] db1];
    unfold same_space in H1; simpl in *; [|by rewrite H1|done].
  pose proof (preserves_indexTxsAtHeight (same_space rootDB)
                (PutUint64 height) txs (λ _, eq_refl)
                (λ k v, preserves_Put_space acceptedAtomicTxByHeightDB rootDB k v
                          ltac:(done)) db1) as H2.
  destruct (indexTxsAtHeight codec (PutUint64 height) txs db1) as [[[]|e2|] db2];
    unfold same_space in H2; simpl in *; [|by rewrite H2, H1|done].
  destruct (Put_effect rootDB maxIndexedHeightKey (PutUint64 height) db2) as [Hc _].
  destruct (Put rootDB maxIndexedHeightKey (PutUint64 height) db2) as [[[]|e3|] db3];
    simpl in *; [done| |done].
  intros _. by rewrite Hc, H2, H1.
Qed.

(** X20 (GetByTxID on a truncated record): for a by-ID record of 8 to 11
    bytes, which has its height but not the length of a payload,
    [GetByTxID] does not report a corruption: the failure of the packer
    is not looked at, the codec is given the empty payload, and the
    result is the codec's verdict on it, paired with the height of the
    record. *)
Theorem GetByTxID_truncated_record (txID v : bytes) (db : versiondb) :
  scheduled db = None →
  byID (current db) !! txID = Some v →
  (8 ≤ length v < 12)%nat →
  ∃ h, record_height v = Some h ∧
    (GetByTxID codec txID db).1
    = match UnmarshalTx codec [] with
      | inr tx => Ok (tx, h)
      | inl msg => Err (ErrCodec msg)
      end.
Proof.
  intros Hs Hl Hlen.
  destruct (GetByTxID_record codec txID v db Hs Hl) as (h & Hh & Hr);
    [unfold LongLen; lia|].
  exists h. split; [done|]. rewrite Hr.
  assert (Hp : record_payload v = []).
  { unfold record_payload. rewrite Uint32_take.
    rewrite Uint32_short; [done|].
    rewrite length_drop. unfold LongLen, IntLen. lia. }
  by rewrite Hp.
Qed.

End MoreRepositoryProperties.

(** ** The migration on a store that does not fail *)

Section MigrationProperties.

Context {Tx : Type}.
Variable ID : Tx → bytes.
Variable codec : codec_Manager Tx.

Lemma getByHeightBytes_fault_free (heightBytes : bytes) (db : versiondb) :
  faults db = [] →
  getByHeightBytes codec heightBytes db
  = (match byHeight (current db) !! heightBytes with
     | Some v => match UnmarshalTxs codec v with
                 | inr txs => Ok txs
                 | inl msg => Err (ErrCodec msg)
                 end
     | None => Err ErrNotFound
     end, db).
Proof.
  intros Hf. unfold getByHeightBytes, mbind, M_bind.
  rewrite (Get_fault_free _ _ _ Hf). simpl.
  destruct (byHeight (current db) !! heightBytes) as [v|]; [|reflexivity].
  unfold ExtractAtomicTxsBatch, codec_call.
  destruct (UnmarshalTxs codec v); reflexivity.
Qed.

Lemma existing_batch_fault_free (heightBytes : bytes) (db : versiondb) :
  faults db = [] →
  existing_batch codec heightBytes db
  = match byHeight (current db) !! heightBytes with
    | Some v => match UnmarshalTxs codec v with
                | inr txs => Some txs
                | inl _ => None
                end
    | None => Some []
    end.
Proof.
  intros Hf. unfold existing_batch. rewrite (getByHeightBytes_fault_free _ _ Hf).
  simpl. destruct (byHeight (current db) !! heightBytes) as [v|]; [|reflexivity].
  destruct (UnmarshalTxs codec v); reflexivity.
Qed.

Lemma addTxToHeightIndex_fault_free (heightBytes : bytes) (tx : Tx)
    (db : versiondb) (txs : list Tx) (txsBytes : bytes) :
  faults db = [] →
  existing_batch codec heightBytes db = Some txs →
  MarshalTxs codec (txs ++ [tx]) = inr txsBytes →
  addTxToHeightIndex ID codec heightBytes tx db
  = (Ok tt, {| current := space_put acceptedAtomicTxByHeightDB heightBytes
                            txsBytes (current db);
               committed := committed db; faults := [] |}).
Proof.
  intros Hf Hb Hm. unfold existing_batch in Hb.
  unfold addTxToHeightIndex, mbind, M_bind, attempt.
  rewrite (getByHeightBytes_fault_free _ _ Hf) in *. simpl in Hb.
  assert (Hidx : ∀ l, MarshalTxs codec l = inr txsBytes →
            indexTxsAtHeight codec heightBytes l db
            = (Ok tt, {| current := space_put acceptedAtomicTxByHeightDB heightBytes
                                      txsBytes (current db);
                         committed := committed db; faults := [] |})).
  { intros l Hl. unfold indexTxsAtHeight. rewrite Hl. unfold codec_call.
    rewrite (bind_eq _ _ db db txsBytes eq_refl).
    apply (Put_fault_free _ _ _ _ Hf). }
  destruct (byHeight (current db) !! heightBytes) as [v|].
  - destruct (UnmarshalTxs codec v) as [msg|l]; simpl in *.
    + destruct (decide (ErrCodec msg = ErrNotFound)); discriminate.
    + injection Hb as ->. by apply Hidx.
  - simpl in *. injection Hb as <-.
    destruct (decide (ErrNotFound ≠ ErrNotFound)) as [Hne|_]; [done|].
    by apply Hidx.
Qed.

Lemma indexEntry_fault_free (it : Iterator) (pending : Z) (db : versiondb)
    (kv : bytes * bytes) (tx : Tx) (txs : list Tx) (txsBytes : bytes) :
  it_cur it = Some kv →
  it_err it = None →
  faults db = [] →
  (LongLen + IntLen ≤ length kv.2)%nat →
  UnmarshalTx codec (drop (LongLen + IntLen) kv.2) = inr tx →
  existing_batch codec (take LongLen kv.2) db = Some txs →
  MarshalTxs codec (txs ++ [tx]) = inr txsBytes →
  ∃ pending' db',
    indexEntry ID codec it pending db = (Ok pending', db') ∧
    faults db' = [] ∧
    byID (current db') = byID (current db) ∧
    byHeight (current db')
    = <[take LongLen kv.2 := txsBytes]> (byHeight (current db)).
Proof.
  intros Hcur Herr Hf Hlen Hx Hb Hm.
  assert (H1 : slice_to kv.2 LongLen db = (Ok (take LongLen kv.2), db)).
  { unfold slice_to. rewrite decide_True by (unfold LongLen, IntLen in *; lia).
    reflexivity. }
  assert (H2 : slice_from kv.2 (LongLen + IntLen) db
               = (Ok (drop (LongLen + IntLen) kv.2), db)).
  { unfold slice_from. rewrite decide_True by done. reflexivity. }
  assert (H3 : ExtractAtomicTx codec (drop (LongLen + IntLen) kv.2) db = (Ok tx, db)).
  { unfold ExtractAtomicTx. rewrite Hx. reflexivity. }
  unfold indexEntry, iter_Error, iter_Value. rewrite Herr, Hcur.
  rewrite (bind_eq _ _ _ _ _ H1), (bind_eq _ _ _ _ _ H2), (bind_eq _ _ _ _ _ H3).
  rewrite (bind_eq _ _ _ _ _ (addTxToHeightIndex_fault_free _ _ _ _ _ Hf Hb Hm)).
  destruct (decide _).
  - rewrite (bind_eq _ _ _ _ _
               (Put_fault_free _ _ _ _ (eq_refl : faults (mkDB _ _ []) = []))).
    rewrite (bind_eq _ _ _ _ _
               (Commit_fault_free _ (eq_refl : faults (mkDB _ _ []) = []))).
    eexists _, _. split; [reflexivity|]. done.
  - eexists _, _. split; [reflexivity|]. done.
Qed.

Lemma entries_from_lookup (m : gmap bytes bytes) (start : bytes)
    (kv : bytes * bytes) :
  kv ∈ entries_from m start → m !! kv.1 = Some kv.2.
Proof.
  unfold entries_from. rewrite merge_sort_Permutation.
  intros [_ Hin]%list_elem_of_filter.
  destruct kv as [k v]. by apply elem_of_map_to_list in Hin.
Qed.

Section WithCodecLaws.

Hypothesis Hround :
  ∀ txs b, MarshalTxs codec txs = inr b → UnmarshalTxs codec b = inr txs.
Hypothesis Htotal : ∀ txs, ∃ b, MarshalTxs codec txs = inr b.

Lemma existing_batch_insert (db db1 : versiondb) (hb0 b : bytes) (txs : list Tx) :
  faults db = [] → faults db1 = [] →
  byHeight (current db1) = <[hb0 := b]> (byHeight (current db)) →
  UnmarshalTxs codec b = inr txs →
  ∀ hb, existing_batch codec hb db1
        = if decide (hb = hb0) then Some txs else existing_batch codec hb db.
Proof.
  intros Hf Hf1 Hbh Hu hb. rewrite !existing_batch_fault_free by done.
  rewrite Hbh. destruct (decide (hb = hb0)) as [->|Hne].
  - rewrite lookup_insert_eq, Hu. reflexivity.
  - rewrite lookup_insert_ne by done. reflexivity.
Qed.

Lemma existing_batch_same (db db1 : versiondb) :
  faults db = [] → faults db1 = [] →
  byHeight (current db1) = byHeight (current db) →
  ∀ hb, existing_batch codec hb db1 = existing_batch codec hb db.
Proof.
  intros Hf Hf1 Hbh hb. rewrite !existing_batch_fault_free by done.
  rewrite Hbh. reflexivity.
Qed.

(** The loop of [initialize] on a store that does not fail, over entries
    that all have their 8 + 4 bytes and a payload that decodes: it ends
    without error, and the batch of each height key has grown by the
    transactions of the entries with that height prefix, in order. *)
Lemma migrate_fault_free (es : list (bytes * bytes)) :
  ∀ (it : Iterator) (pending : Z) (db : versiondb),
  it_rest it = es →
  it_err it = None →
  faults db = [] →
  Forall (λ kv : bytes * bytes,
            (LongLen + IntLen ≤ length kv.2)%nat ∧
            ∃ tx, UnmarshalTx codec (drop (LongLen + IntLen) kv.2) = inr tx) es →
  (∀ hb, is_Some (existing_batch codec hb db)) →
  ∃ it' db',
    migrate ID codec it pending db = (Ok it', db') ∧
    faults db' = [] ∧
    byID (current db') = byID (current db) ∧
    (∀ hb, existing_batch codec hb db'
           = (λ txs, txs ++ migrated_txs codec es hb) <$> existing_batch codec hb db) ∧
    (∀ hb, migrated_txs codec es hb = [] →
           byHeight (current db') !! hb = byHeight (current db) !! hb).
Proof.
  induction es as [|kv es IH]; intros it pending db Hrest Herr Hf Hes Hbatch.
  - exists {| it_rest := []; it_cur := None; it_err := None |}, db.
    split; [|split; [done|split; [done|split; [|done]]]].
    + rewrite migrate_turn. unfold iter_Next.
      rewrite Herr, (tick_fault_free db Hf), Hrest. reflexivity.
    + intros hb. destruct (existing_batch codec hb db) as [l|]; simpl; [|done].
      by rewrite app_nil_r.
  - apply Forall_cons in Hes as [[Hlen [tx Hx]] Hes].
    destruct (Hbatch (take LongLen kv.2)) as [l0 Hl0].
    destruct (Htotal (l0 ++ [tx])) as [b Hb].
    set (it1 := {| it_rest := es; it_cur := Some kv; it_err := None |}).
    destruct (indexEntry_fault_free it1 pending db kv tx l0 b)
      as (pending1 & db1 & Hstep & Hf1 & Hid1 & Hbh1); try done.
    pose proof (existing_batch_insert db db1 _ _ _ Hf Hf1 Hbh1 (Hround _ _ Hb))
      as Hnew.
    destruct (IH it1 pending1 db1) as (it' & db' & Hm & Hf' & Hid' & Hb' & Hu');
      try done.
    { intros hb. rewrite Hnew. destruct (decide _); [eauto|apply Hbatch]. }
    exists it', db'. split; [|split; [done|split; [congruence|split]]].
    + rewrite migrate_turn. unfold iter_Next.
      rewrite Herr, (tick_fault_free db Hf), Hrest. fold it1.
      rewrite Hstep. exact Hm.
    + intros hb. rewrite Hb', Hnew. cbn [migrated_txs]. rewrite Hx.
      destruct (decide (hb = take LongLen kv.2)) as [->|Hne].
      * rewrite Hl0. rewrite decide_True by done. cbn [fmap option_fmap option_map].
        by rewrite <- app_assoc.
      * rewrite decide_False by done. reflexivity.
    + intros hb. cbn [migrated_txs]. rewrite Hx.
      destruct (decide (take LongLen kv.2 = hb)) as [Heq|Hne]; [discriminate|].
      intros Hnil. rewrite (Hu' hb Hnil), Hbh1. by apply lookup_insert_ne.
Qed.

Lemma runMigration_fault_free (lastTxID : bytes) (lastAcceptedHeight : Z)
    (db : versiondb) :
  faults db = [] →
  (∀ k v, byID (current db) !! k = Some v →
     (LongLen + IntLen ≤ length v)%nat ∧
     ∃ tx, UnmarshalTx codec (drop (LongLen + IntLen) v) = inr tx) →
  (∀ hb, is_Some (existing_batch codec hb db)) →
  ∃ db',
    runMigration ID codec lastTxID lastAcceptedHeight db = (Ok tt, db') ∧
    marker (current db') = Some (PutUint64 lastAcceptedHeight) ∧
    committed db' = current db' ∧
    byID (current db') = byID (current db) ∧
    (∀ hb, existing_batch codec hb db'
           = (λ txs, txs ++ migrated_txs codec
                              (entries_from (byID (current db)) lastTxID) hb)
             <$> existing_batch codec hb db) ∧
    faults db' = [] ∧
    (∀ hb, migrated_txs codec (entries_from (byID (current db)) lastTxID) hb = [] →
           byHeight (current db') !! hb = byHeight (current db) !! hb).
Proof.
  intros Hf Hrec Hbatch.
  set (es := entries_from (byID (current db)) lastTxID).
  destruct (migrate_fault_free es
              (NewIteratorWithStart acceptedAtomicTxDB lastTxID db) 0 db)
    as (it' & db1 & Hm & Hf1 & Hid1 & Hb1 & Hu1); try done.
  { apply Forall_forall. intros [k v] Hin.
    apply entries_from_lookup in Hin. by apply (Hrec k v). }
  eexists. split.
  - unfold runMigration. rewrite (bind_eq _ _ _ _ _ Hm).
    unfold completeMigration.
    rewrite (bind_eq _ _ _ _ _ (Put_fault_free _ _ _ _ Hf1)).
    apply (Commit_fault_free _ (eq_refl : faults (mkDB _ _ []) = [])).
  - cbn [current committed faults]. split; [apply marker_space_put|].
    split; [done|]. split; [exact Hid1|]. split; [|split; [done|exact Hu1]].
    intros hb. rewrite <- Hb1. by apply existing_batch_same.
Qed.

(** X9 (the migration builds the height index): on a store that does
    not fail, whose marker is absent (a fresh migration, from the start
    of the by-ID space) or a 32-byte cursor (a migration resumed from
    that key on), whose by-ID records all have their 8 + 4 bytes and a
    payload that decodes, and whose by-height records decode,
    [initialize] returns nil; it leaves the by-ID space alone, appends to
    the batch of every height key the transactions of the by-ID records
    with that height prefix, in key order, writes the 8-byte marker of
    the supplied height and commits.  The codec is assumed to marshal
    every list and to unmarshal what it marshalled. *)
Theorem initialize_builds_height_index (lastAcceptedHeight : Z)
    (start : bytes) (db : versiondb) :
  faults db = [] →
  (marker (current db) = None ∧ start = []) ∨
  (marker (current db) = Some start ∧ length start = 32%nat) →
  (∀ k v, byID (current db) !! k = Some v →
     (LongLen + IntLen ≤ length v)%nat ∧
     ∃ tx, UnmarshalTx codec (drop (LongLen + IntLen) v) = inr tx) →
  (∀ hb, is_Some (existing_batch codec hb db)) →
  ∃ db',
    initialize ID codec lastAcceptedHeight db = (Ok tt, db') ∧
    marker (current db') = Some (PutUint64 lastAcceptedHeight) ∧
    committed db' = current db' ∧
    byID (current db') = byID (current db) ∧
    ∀ hb, existing_batch codec hb db'
          = (λ txs, txs ++ migrated_txs codec
                             (entries_from (byID (current db)) start) hb)
            <$> existing_batch codec hb db.
Proof.
  intros Hf Hstart Hrec Hbatch.
  destruct (runMigration_fault_free start lastAcceptedHeight db Hf Hrec Hbatch)
    as (db' & Hrun & Hmk & Hcm & Hid & Hb & _).
  exists db'. split; [|done].
  unfold initialize, mbind, M_bind, attempt.
  rewrite (Get_fault_free _ _ _ Hf). unfold marker in Hstart. simpl.
  destruct Hstart as [[-> ->]|[-> Hlen]].
  - destruct (decide (ErrNotFound ≠ ErrNotFound)); [done|exact Hrun].
  - rewrite decide_False by (rewrite Hlen; discriminate).
    rewrite decide_True by done. exact Hrun.
Qed.

(** X19 (reads by height after a fresh migration): on a store that does
    not fail, with no marker and no by-height record, whose by-ID
    records all have their 8 + 4 bytes and a payload that decodes,
    [initialize] returns nil and [GetByHeight] then returns, for each
    height, the transactions of the by-ID records with that height
    prefix, in key order, and the not-found error when there is none.
    The codec is assumed to marshal every list and to unmarshal what it
    marshalled. *)
Theorem GetByHeight_after_fresh_migration (lastAcceptedHeight : Z)
    (db : versiondb) :
  faults db = [] →
  marker (current db) = None →
  byHeight (current db) = ∅ →
  (∀ k v, byID (current db) !! k = Some v →
     (LongLen + IntLen ≤ length v)%nat ∧
     ∃ tx, UnmarshalTx codec (drop (LongLen + IntLen) v) = inr tx) →
  ∃ db',
    initialize ID codec lastAcceptedHeight db = (Ok tt, db') ∧
    ∀ height,
      (GetByHeight codec height db').1
      = match migrated_txs codec (entries_from (byID (current db)) [])
                (PutUint64 height) with
        | [] => Err ErrNotFound
        | txs => Ok txs
        end.
Proof.
  intros Hf Hmk Hempty Hrec.
  assert (Hbatch : ∀ hb, existing_batch codec hb db = Some []).
  { intros hb. rewrite existing_batch_fault_free by done.
    by rewrite Hempty, lookup_empty. }
  destruct (runMigration_fault_free [] lastAcceptedHeight db Hf Hrec)
    as (db' & Hrun & _ & _ & _ & Hb & Hf' & Hu).
  { intros hb. rewrite Hbatch. eauto. }
  exists db'. split.
  - unfold initialize, mbind, M_bind, attempt.
    rewrite (Get_fault_free _ _ _ Hf). unfold marker in Hmk. simpl.
    rewrite Hmk. destruct (decide (ErrNotFound ≠ ErrNotFound)); [done|exact Hrun].
  - intros height. unfold GetByHeight.
    specialize (Hb (PutUint64 height)). specialize (Hu (PutUint64 height)).
    rewrite Hbatch in Hb. cbn [fmap option_fmap option_map app] in Hb.
    rewrite existing_batch_fault_free in Hb by done.
    rewrite getByHeightBytes_fault_free by done. cbn [fst].
    destruct (migrated_txs codec _ (PutUint64 height)) as [|tx txs].
    + rewrite Hu, Hempty, lookup_empty by done. reflexivity.
    + destruct (byHeight (current db') !! PutUint64 height) as [v|];
        [|discriminate].
      destruct (UnmarshalTxs codec v) as [msg|l]; [discriminate|].
      by injection Hb as ->.
Qed.

End WithCodecLaws.

Lemma tick_scheduled_Some (db : versiondb) (e : error) :
  scheduled db = Some e → ∃ db', tick db = (Err e, db') ∧ same_content db db'.
Proof.
  unfold scheduled, tick. destruct (faults db) as [|[e'|] fs]; intros H;
    try discriminate. injection H as ->. eexists. split; [reflexivity|].
  split; reflexivity.
Qed.

(** X10 (the migration on a short record): when the next by-ID record
    the iterator yields has fewer than 8 + 4 bytes, the loop of
    [initialize] panics on its slice expressions, having written
    nothing. *)
Theorem migrate_panics_on_short_record (it : Iterator) (pending : Z)
    (db : versiondb) (kv : bytes * bytes) (rest : list (bytes * bytes)) :
  it_err it = None →
  it_rest it = kv :: rest →
  scheduled db = None →
  (length kv.2 < 12)%nat →
  ∃ db', migrate ID codec it pending db = (Panic, db') ∧ same_content db db'.
Proof.
  intros Herr Hrest Hs Hlen.
  destruct (tick_scheduled db Hs) as (db1 & Ht & Hc).
  exists db1. split; [|exact Hc].
  rewrite migrate_turn. unfold iter_Next. rewrite Herr, Ht, Hrest.
  unfold indexEntry, iter_Error, iter_Value. cbn [it_err it_cur].
  unfold mbind, M_bind, slice_to, slice_from.
  destruct (decide (LongLen ≤ length kv.2)%nat); [|reflexivity].
  rewrite decide_False by (unfold LongLen, IntLen; lia). reflexivity.
Qed.

(** X11 (the migration on a record that does not decode): when the
    payload of the next by-ID record the iterator yields is refused by
    the codec, the loop of [initialize] returns the codec's error, having
    written nothing. *)
Theorem migrate_stops_on_codec_error (it : Iterator) (pending : Z)
    (db : versiondb) (kv : bytes * bytes) (rest : list (bytes * bytes))
    (msg : string) :
  it_err it = None →
  it_rest it = kv :: rest →
  scheduled db = None →
  (LongLen + IntLen ≤ length kv.2)%nat →
  UnmarshalTx codec (drop (LongLen + IntLen) kv.2) = inl msg →
  ∃ db', migrate ID codec it pending db = (Err (ErrCodec msg), db') ∧
         same_content db db'.
Proof.
  intros Herr Hrest Hs Hlen Hx.
  destruct (tick_scheduled db Hs) as (db1 & Ht & Hc).
  exists db1. split; [|exact Hc].
  assert (H1 : slice_to kv.2 LongLen db1 = (Ok (take LongLen kv.2), db1)).
  { unfold slice_to. rewrite decide_True by (unfold LongLen, IntLen in *; lia).
    reflexivity. }
  assert (H2 : slice_from kv.2 (LongLen + IntLen) db1
               = (Ok (drop (LongLen + IntLen) kv.2), db1)).
  { unfold slice_from. rewrite decide_True by done. reflexivity. }
  rewrite migrate_turn. unfold iter_Next. rewrite Herr, Ht, Hrest.
  unfold indexEntry, iter_Error, iter_Value. cbn [it_err it_cur].
  rewrite (bind_eq _ _ _ _ _ H1), (bind_eq _ _ _ _ _ H2).
  unfold ExtractAtomicTx, mbind, M_bind, codec_call. rewrite Hx. reflexivity.
Qed.

Lemma payload_size_nonneg (es : list (bytes * bytes)) : 0 <= payload_size es.
Proof. induction es as [|kv es IH]; simpl; lia. Qed.

Lemma indexEntry_under_cap (it : Iterator) (pending pending' : Z)
    (db db' : versiondb) :
  indexEntry ID codec it pending db = (Ok pending', db') →
  pending + Z.of_nat (length (drop (LongLen + IntLen) (iter_Value it)))
  <= commitSizeCap →
  pending' = pending + Z.of_nat (length (drop (LongLen + IntLen) (iter_Value it))) ∧
  root (current db') = root (current db) ∧
  committed db' = committed db.
Proof.
  intros H Hcap. unfold indexEntry in H. destruct (iter_Error it); [discriminate|].
  apply bind_Ok in H as (heightBytes & db1 & Hs1 & H).
  unfold slice_to in Hs1. destruct (decide _); [|discriminate].
  injection Hs1 as <- <-.
  apply bind_Ok in H as (txBytes & db2 & Hs2 & H).
  unfold slice_from in Hs2. destruct (decide _); [|discriminate].
  injection Hs2 as <- <-.
  apply bind_Ok in H as (tx & db3 & Hx & H).
  apply codec_call_Ok in Hx as [Hx ->].
  apply bind_Ok in H as ([] & db4 & Hadd & H).
  apply addTxToHeightIndex_Ok in Hadd as (txs & b & _ & _ & Hc & Hd).
  unfold LongLen, IntLen in *. cbn [Nat.add] in *.
  rewrite decide_False in H by lia. injection H as <- <-.
  rewrite Hc, Hd. done.
Qed.

Lemma migrate_under_cap_aux (es : list (bytes * bytes)) :
  ∀ (it it' : Iterator) (pending : Z) (db db' : versiondb),
  it_rest it = es →
  migrate ID codec it pending db = (Ok it', db') →
  pending + payload_size es <= commitSizeCap →
  committed db' = committed db ∧ root (current db') = root (current db).
Proof.
  induction es as [|kv es IH]; intros it it' pending db db' Hrest Hm Hcap;
    rewrite migrate_turn in Hm; unfold iter_Next in Hm; rewrite Hrest in Hm;
    pose proof (tick_same_content db) as [Hc Hd].
  - destruct (it_err it); [by injection Hm as <- <-|].
    destruct (tick db) as [[[]|e|] db1]; simpl in Hc, Hd;
      injection Hm as <- <-; by rewrite Hc, Hd.
  - destruct (it_err it); [by injection Hm as <- <-|].
    destruct (tick db) as [[[]|e|] db1]; simpl in Hc, Hd;
      [|injection Hm as <- <-; by rewrite Hc, Hd|].
    + set (it1 := {| it_rest := es; it_cur := Some kv; it_err := None |}) in *.
      cbn [payload_size] in Hcap. pose proof (payload_size_nonneg es) as Hnn.
      destruct (indexEntry ID codec it1 pending db1) as [[pending1|e|] db2] eqn:Hstep;
        try discriminate.
      apply indexEntry_under_cap in Hstep as (-> & Hr & Hcm);
        [|unfold it1, iter_Value; cbn [it_cur]; lia].
      destruct (IH it1 it' _ db2 db' eq_refl Hm) as [Hcm' Hr'].
      { unfold it1, iter_Value. cbn [it_cur]. lia. }
      split; congruence.
    + set (it1 := {| it_rest := es; it_cur := Some kv; it_err := None |}) in *.
      cbn [payload_size] in Hcap. pose proof (payload_size_nonneg es) as Hnn.
      destruct (indexEntry ID codec it1 pending db1) as [[pending1|e|] db2] eqn:Hstep;
        try discriminate.
      apply indexEntry_under_cap in Hstep as (-> & Hr & Hcm);
        [|unfold it1, iter_Value; cbn [it_cur]; lia].
      destruct (IH it1 it' _ db2 db' eq_refl Hm) as [Hcm' Hr'].
      { unfold it1, iter_Value. cbn [it_cur]. lia. }
      split; congruence.
Qed.

(** X15 (no checkpoint under the cap): when the payload bytes of the
    entries still ahead, added to the counter, do not exceed the cap, the
    loop of [initialize] that ends without error has committed nothing
    and has left the progress marker alone. *)
Theorem migrate_under_cap (it it' : Iterator) (pending : Z) (db db' : versiondb) :
  migrate ID codec it pending db = (Ok it', db') →
  pending + payload_size (it_rest it) <= commitSizeCap →
  committed db' = committed db ∧ marker (current db') = marker (current db).
Proof.
  intros Hm Hcap.
  destruct (migrate_under_cap_aux (it_rest it) it it' pending db db' eq_refl Hm Hcap)
    as [Hc Hr].
  unfold marker. by rewrite Hr.
Qed.

(** When [initialize] has returned nil the marker has 8 bytes. *)
Lemma initialize_Ok_marker (lastAcceptedHeight : Z) (db db' : versiondb) :
  initialize ID codec lastAcceptedHeight db = (Ok tt, db') →
  ∃ v, marker (current db') = Some v ∧ length v = LongLen.
Proof.
  intros H. unfold initialize in H.
  apply bind_Ok in H as (r & db0 & Ha & H).
  apply attempt_Ok in Ha. destruct r as [e|v].
  - destruct (decide (e ≠ ErrNotFound)); [discriminate|].
    apply runMigration_Ok in H as (_ & Hmk & _). eauto.
  - apply Get_Ok in Ha as [Hl [Hc _]].
    destruct (decide (length v = LongLen)) as [Hlen|_].
    + injection H as <-. exists v. unfold marker. by rewrite Hc.
    + destruct (decide (length v = HashLength)); [|discriminate].
      apply runMigration_Ok in H as (_ & Hmk & _). eauto.
Qed.

Lemma initialize_with_marker (lastAcceptedHeight : Z) (v : bytes) (db : versiondb) :
  scheduled db = None →
  marker (current db) = Some v →
  length v = LongLen →
  ∃ db', initialize ID codec lastAcceptedHeight db = (Ok tt, db') ∧
         same_content db db'.
Proof.
  intros Hs Hm Hlen.
  destruct (Get_scheduled rootDB maxIndexedHeightKey db Hs) as (db1 & Hc & Hg).
  simpl in Hg. unfold marker in Hm. rewrite Hm in Hg.
  exists db1. split; [|exact Hc].
  unfold initialize, mbind, M_bind, attempt. rewrite Hg.
  rewrite decide_True by done. reflexivity.
Qed.

(** X12 (construction is idempotent): once [initialize] has returned
    nil on a handle, a further [initialize] on it, with any height, when
    the store lets its read through, returns nil and changes nothing. *)
Theorem initialize_twice (lastAcceptedHeight lastAcceptedHeight' : Z)
    (db db' : versiondb) :
  initialize ID codec lastAcceptedHeight db = (Ok tt, db') →
  scheduled db' = None →
  ∃ db'', initialize ID codec lastAcceptedHeight' db' = (Ok tt, db'') ∧
          same_content db' db''.
Proof.
  intros H Hs. apply initialize_Ok_marker in H as (v & Hm & Hlen).
  by apply (initialize_with_marker _ v).
Qed.

(** X13 (construction after a Write): on a handle on which a [Write] has
    returned nil, [NewAtomicTxRepository] runs no migration: it returns
    nil and changes nothing, when the store lets its read through. *)
Theorem construction_after_Write (height lastAcceptedHeight : Z) (txs : list Tx)
    (db db' : versiondb) :
  Write ID codec height txs db = (Ok tt, db') →
  scheduled db' = None →
  ∃ db'', NewAtomicTxRepository ID codec lastAcceptedHeight db' = (Ok tt, db'') ∧
          same_content db' db''.
Proof.
  intros H Hs. apply Write_effect in H as (b & _ & _ & Hr & _).
  apply (initialize_with_marker _ (PutUint64 height)); [done| |reflexivity].
  unfold marker. rewrite Hr. apply lookup_insert_eq.
Qed.

(** X14 (construction when the marker cannot be read): when the read of
    the marker fails with an error of the store other than not-found,
    [initialize] returns that error and changes nothing. *)
Theorem initialize_marker_read_failure (lastAcceptedHeight : Z) (e : error)
    (db : versiondb) :
  scheduled db = Some e →
  e ≠ ErrNotFound →
  ∃ db', initialize ID codec lastAcceptedHeight db = (Err e, db') ∧
         same_content db db'.
Proof.
  intros Hs Hne. destruct (tick_scheduled_Some db e Hs) as (db1 & Ht & Hc).
  exists db1. split; [|exact Hc].
  unfold initialize, attempt, Get, mbind, M_bind. rewrite Ht.
  rewrite decide_True by done. reflexivity.
Qed.

(** X16 (GetIndexHeight after construction): once [initialize] has
    returned nil, [GetIndexHeight], when the store lets its read
    through, returns a height: neither not-found nor the
    unexpected-length error. *)
Theorem GetIndexHeight_after_initialize (lastAcceptedHeight : Z)
    (db db' : versiondb) :
  initialize ID codec lastAcceptedHeight db = (Ok tt, db') →
  scheduled db' = None →
  ∃ indexHeight, (GetIndexHeight db').1 = Ok (IndexHeight indexHeight).
Proof.
  intros H Hs. apply initialize_Ok_marker in H as (v & Hm & Hlen).
  destruct (Get_scheduled rootDB maxIndexedHeightKey db' Hs) as (db1 & _ & Hg).
  simpl in Hg. unfold marker in Hm. rewrite Hm in Hg.
  destruct (Uint64_is_Some v) as [h Hh]; [lia|].
  exists h. unfold GetIndexHeight. rewrite (bind_eq _ _ _ _ _ Hg).
  rewrite decide_False by (intros Hne; by apply Hne). rewrite Hh. reflexivity.
Qed.

End MigrationProperties.

(** ** Height keys *)

Lemma Z_of_byte_inj (x y : byte) : Z_of_byte x = Z_of_byte y → x = y.
Proof.
  unfold Z_of_byte. intros H. apply N2Z.inj in H.
  pose proof (Byte.of_to_N x) as Hx. rewrite H, Byte.of_to_N in Hx. congruence.
Qed.

Lemma Z_of_byte_shiftr (v k : Z) :
  0 <= k → Z_of_byte (byte_of_Z (Z.shiftr v k)) = (v / 2 ^ k) mod 256.
Proof.
  intros Hk. rewrite Z_of_byte_of_Z, Z.shiftr_div_pow2 by done.
  change 255 with (Z.ones 8). by rewrite Z.land_ones.
Qed.

Lemma be_bytes_le (n : nat) (a b : Z) :
  bytes_le (be_bytes n a) (be_bytes n b)
  = (a mod 2 ^ (8 * Z.of_nat n) <=? b mod 2 ^ (8 * Z.of_nat n)).
Proof.
  induction n as [|n IH].
  - simpl. rewrite !Z.mod_1_r. reflexivity.
  - cbn [be_bytes bytes_le].
    set (k := 8 * Z.of_nat n) in *.
    assert (Hk : 0 <= k) by lia.
    assert (Hpow : 2 ^ (8 * Z.of_nat (S n)) = 2 ^ k * 256).
    { replace (8 * Z.of_nat (S n)) with (k + 8) by lia.
      rewrite Z.pow_add_r by lia. reflexivity. }
    assert (HP : 0 < 2 ^ k) by (apply Z.pow_pos_nonneg; lia).
    rewrite Hpow, !Z.rem_mul_r by lia.
    pose proof (Z_of_byte_shiftr a k Hk) as Ha.
    pose proof (Z_of_byte_shiftr b k Hk) as Hb.
    pose proof (Z.mod_pos_bound a (2 ^ k) HP) as Hla.
    pose proof (Z.mod_pos_bound b (2 ^ k) HP) as Hlb.
    pose proof (Z.mod_pos_bound (a / 2 ^ k) 256 ltac:(lia)) as Hda.
    pose proof (Z.mod_pos_bound (b / 2 ^ k) 256 ltac:(lia)) as Hdb.
    destruct (decide (byte_of_Z (Z.shiftr a k) = byte_of_Z (Z.shiftr b k)))
      as [Heq|Hne].
    + rewrite IH. rewrite Heq in Ha. rewrite <- Ha, <- Hb.
      destruct (Z.leb_spec (a mod 2 ^ k) (b mod 2 ^ k));
        symmetry; [apply Z.leb_le|apply Z.leb_gt]; lia.
    + assert (Hd : (a / 2 ^ k) mod 256 ≠ (b / 2 ^ k) mod 256).
      { rewrite <- Ha, <- Hb. intros H. by apply Hne, Z_of_byte_inj. }
      unfold Z_of_byte in Ha, Hb.
      destruct (decide ((a / 2 ^ k) mod 256 < (b / 2 ^ k) mod 256)) as [Hlt|Hge].
      * rewrite bool_decide_true by lia. symmetry. apply Z.leb_le. nia.
      * rewrite bool_decide_false by lia. symmetry. apply Z.leb_gt. nia.
Qed.

(** X17 (height keys sort like heights): the keys of the by-height
    space compare, in the byte order of the store, as the [uint64]
    heights they encode. *)
Theorem height_keys_ordered (a b : Z) :
  0 <= a < 2 ^ 64 → 0 <= b < 2 ^ 64 →
  bytes_le (PutUint64 a) (PutUint64 b) = (a <=? b).
Proof.
  intros Ha Hb.
  change (PutUint64 a) with (be_bytes 8 a).
  change (PutUint64 b) with (be_bytes 8 b).
  rewrite be_bytes_le. change (8 * Z.of_nat 8) with 64.
  by rewrite !Z.mod_small.
Qed.

(** ** warptest *)

Lemma Contains_elem_of (s : list bytes) (v : bytes) :
  warptest.Contains s v = true ↔ v ∈ s.
Proof.
  induction s as [|x s IH]; simpl.
  - split; [discriminate|]. by intros ?%elem_of_nil.
  - rewrite elem_of_cons. destruct (decide (v = x)) as [->|Hne].
    + split; [by left|done].
    + rewrite IH. split; [by right|]. by intros [?|?].
Qed.

(** X18 (MakeBlockClient): the client made for a list of block
    identifiers returns, for a requested identifier of the list, the
    accepted block with that identifier, and for any other the
    not-found error of the database; the empty client returns that
    error for every identifier. *)
Theorem MakeBlockClient_spec (blkIDs : list bytes) (blkID : bytes) :
  (blkID ∈ blkIDs →
     warptest.GetAcceptedBlock (warptest.MakeBlockClient blkIDs) blkID
     = inr {| warptest.IDV := blkID; warptest.StatusV := warptest.Accepted |}) ∧
  (blkID ∉ blkIDs →
     warptest.GetAcceptedBlock (warptest.MakeBlockClient blkIDs) blkID
     = inl ErrNotFound) ∧
  warptest.GetAcceptedBlock warptest.EmptyBlockClient blkID = inl ErrNotFound.
Proof.
  unfold warptest.GetAcceptedBlock, warptest.MakeBlockClient.
  split; [|split; [|reflexivity]].
  - intros Hin. apply Contains_elem_of in Hin. by rewrite Hin.
  - intros Hnot. destruct (warptest.Contains blkIDs blkID) eqn:Hc; [|done].
    by apply Contains_elem_of in Hc.
Qed.

(** ** The further statements on the sample instance *)

Lemma GetIndexHeight_errors_witness :
  scheduled Sample2.resuming = None ∧
  match marker (current Sample2.resuming) with
  | None => (GetIndexHeight Sample2.resuming).1 = Err ErrNotFound
  | Some v =>
      length v ≠ 8%nat →
      (GetIndexHeight Sample2.resuming).1 = Ok (UnexpectedLength (length v))
  end.
Proof.
  split; [reflexivity|].
  apply (GetIndexHeight_errors Sample2.resuming). reflexivity.
Defined.

Lemma GetByHeight_not_found_witness :
  (GetByHeight Sample.codec 11 Sample.written).1 = Err ErrNotFound.
Proof.
  apply (GetByHeight_not_found Sample.codec 11 Sample.written).
  - reflexivity.
  - vm_compute. reflexivity.
Defined.

Lemma GetByHeight_after_Write_witness :
  (GetByHeight Sample.codec 10
     (Write Sample.ID Sample.codec 10 [Sample.B; Sample.A; Sample.B]
        Sample.written).2).1
  = Ok [Sample.B; Sample.A; Sample.B].
Proof.
  apply (GetByHeight_after_Write Sample.ID Sample.codec 10
           [Sample.B; Sample.A; Sample.B] Sample.written).
  - intros b [= <-]. reflexivity.
  - vm_compute. reflexivity.
  - vm_compute. reflexivity.
Defined.

Lemma GetIndexHeight_after_Write_witness :
  (GetIndexHeight
     (Write Sample.ID Sample.codec 10 [Sample.A; Sample.B] Sample.emptyDB).2).1
  = Ok (IndexHeight 10).
Proof.
  apply (GetIndexHeight_after_Write Sample.ID Sample.codec 10
           [Sample.A; Sample.B] Sample.emptyDB).
  - lia.
  - vm_compute. reflexivity.
  - vm_compute. reflexivity.
Defined.

Lemma Write_frame_witness :
  let db' := (Write Sample.ID Sample.codec 11 [Sample.C] Sample.written).2 in
  (∀ height', 0 <= height' < 2 ^ 64 → height' ≠ 11 →
     byHeight (current db') !! PutUint64 height'
     = byHeight (current Sample.written) !! PutUint64 height') ∧
  (∀ txID, txID ∉ Sample.ID <$> [Sample.C] →
     byID (current db') !! txID = byID (current Sample.written) !! txID).
Proof.
  intros db'.
  apply (Write_frame Sample.ID Sample.codec 11 [Sample.C] Sample.written db').
  - lia.
  - vm_compute. reflexivity.
Defined.

Lemma Write_empty_witness :
  let db' := (Write Sample.ID Sample.codec 12 [] Sample.written).2 in
  byID (current db') = byID (current Sample.written) ∧
  (∃ txsBytes, MarshalTxs Sample.codec [] = inr txsBytes ∧
     byHeight (current db') !! PutUint64 12 = Some txsBytes) ∧
  marker (current db') = Some (PutUint64 12).
Proof.
  intros db'.
  apply (Write_empty Sample.ID Sample.codec 12 Sample.written db').
  vm_compute. reflexivity.
Defined.

Lemma Sample_legacy_records (k v : bytes) :
  byID (current Sample.legacy) !! k = Some v →
  (LongLen + IntLen ≤ length v)%nat ∧
  ∃ tx, UnmarshalTx Sample.codec (drop (LongLen + IntLen) v) = inr tx.
Proof.
  intros H. apply elem_of_map_to_list in H.
  set (l := map_to_list (byID (current Sample.legacy))) in *.
  vm_compute in l. subst l.
  repeat (apply elem_of_cons in H as [H|H];
          [injection H as -> ->; split; [unfold LongLen, IntLen; simpl; lia|eexists; reflexivity]|]).
  by apply elem_of_nil in H.
Qed.

Lemma Sample_legacy_batches (hb : bytes) :
  is_Some (existing_batch Sample.codec hb Sample.legacy).
Proof.
  rewrite existing_batch_fault_free by reflexivity.
  replace (byHeight (current Sample.legacy)) with (∅ : gmap bytes bytes)
    by (vm_compute; reflexivity).
  rewrite lookup_empty. eauto.
Qed.

Lemma initialize_builds_height_index_witness :
  ∃ db',
    initialize Sample.ID Sample.codec 3 Sample.legacy = (Ok tt, db') ∧
    marker (current db') = Some (PutUint64 3) ∧
    committed db' = current db' ∧
    byID (current db') = byID (current Sample.legacy) ∧
    ∀ hb, existing_batch Sample.codec hb db'
          = (λ txs, txs ++ migrated_txs Sample.codec
                             (entries_from (byID (current Sample.legacy)) []) hb)
            <$> existing_batch Sample.codec hb Sample.legacy.
Proof.
  apply (initialize_builds_height_index Sample.ID Sample.codec).
  - intros txs b [= <-]. reflexivity.
  - intros txs. eexists. reflexivity.
  - reflexivity.
  - left. split; [vm_compute; reflexivity|reflexivity].
  - exact Sample_legacy_records.
  - exact Sample_legacy_batches.
Defined.

Lemma migrate_panics_on_short_record_witness :
  ∃ db',
    migrate Sample.ID Sample.codec
      (NewIteratorWithStart acceptedAtomicTxDB [] Sample2.shortRecord) 0
      Sample2.shortRecord
    = (Panic, db') ∧
    same_content Sample2.shortRecord db'.
Proof.
  apply (migrate_panics_on_short_record Sample.ID Sample.codec _ 0
           Sample2.shortRecord
           (Sample.ID Sample.A, PutUint64 1 ++ [Byte.x00]) []).
  - reflexivity.
  - vm_compute. reflexivity.
  - reflexivity.
  - simpl. lia.
Defined.

Lemma migrate_stops_on_codec_error_witness :
  ∃ db',
    migrate Sample.ID Sample.codec
      (NewIteratorWithStart acceptedAtomicTxDB [] Sample2.badPayload) 0
      Sample2.badPayload
    = (Err (ErrCodec "unmarshal: bad transaction"), db') ∧
    same_content Sample2.badPayload db'.
Proof.
  apply (migrate_stops_on_codec_error Sample.ID Sample.codec _ 0
           Sample2.badPayload
           (Sample.ID Sample.A, by_id_record (PutUint64 1) [Byte.xff]) []).
  - reflexivity.
  - vm_compute. reflexivity.
  - reflexivity.
  - unfold LongLen, IntLen. simpl. lia.
  - reflexivity.
Defined.

Lemma migrate_under_cap_witness :
  let r := migrate Sample.ID Sample.codec
             (NewIteratorWithStart acceptedAtomicTxDB [] Sample.legacy) 0
             Sample.legacy in
  committed r.2 = committed Sample.legacy ∧
  marker (current r.2) = marker (current Sample.legacy).
Proof.
  intros r.
  apply (migrate_under_cap Sample.ID Sample.codec
           (NewIteratorWithStart acceptedAtomicTxDB [] Sample.legacy)
           {| it_rest := []; it_cur := None; it_err := None |} 0
           Sample.legacy r.2).
  - vm_compute. reflexivity.
  - vm_compute. discriminate.
Defined.

Lemma initialize_twice_witness :
  let db' := (initialize Sample.ID Sample.codec 3 Sample.legacy).2 in
  ∃ db'', initialize Sample.ID Sample.codec 5 db' = (Ok tt, db'') ∧
          same_content db' db''.
Proof.
  intros db'.
  apply (initialize_twice Sample.ID Sample.codec 3 5 Sample.legacy db').
  - vm_compute. reflexivity.
  - vm_compute. reflexivity.
Defined.

Lemma construction_after_Write_witness :
  let db' := (Write Sample.ID Sample.codec 10 [Sample.A; Sample.B]
                Sample.emptyDB).2 in
  ∃ db'', NewAtomicTxRepository Sample.ID Sample.codec 10 db' = (Ok tt, db'') ∧
          same_content db' db''.
Proof.
  intros db'.
  apply (construction_after_Write Sample.ID Sample.codec 10 10
           [Sample.A; Sample.B] Sample.emptyDB db').
  - vm_compute. reflexivity.
  - vm_compute. reflexivity.
Defined.

Lemma initialize_marker_read_failure_witness :
  ∃ db', initialize Sample.ID Sample.codec 3
           (Sample.withFaults [Some ErrClosed] Sample.legacy)
         = (Err ErrClosed, db') ∧
         same_content (Sample.withFaults [Some ErrClosed] Sample.legacy) db'.
Proof.
  apply (initialize_marker_read_failure Sample.ID Sample.codec 3 ErrClosed
           (Sample.withFaults [Some ErrClosed] Sample.legacy)).
  - reflexivity.
  - discriminate.
Defined.

Lemma GetIndexHeight_after_initialize_witness :
  ∃ indexHeight,
    (GetIndexHeight (initialize Sample.ID Sample.codec 3 Sample.legacy).2).1
    = Ok (IndexHeight indexHeight).
Proof.
  apply (GetIndexHeight_after_initialize Sample.ID Sample.codec 3 Sample.legacy).
  - vm_compute. reflexivity.
  - vm_compute. reflexivity.
Defined.

Lemma height_keys_ordered_witness :
  bytes_le (PutUint64 255) (PutUint64 256) = (255 <=? 256).
Proof.
  apply (height_keys_ordered 255 256); lia.
Defined.

Lemma GetByHeight_after_fresh_migration_witness :
  ∃ db',
    initialize Sample.ID Sample.codec 3 Sample.legacy = (Ok tt, db') ∧
    ∀ height,
      (GetByHeight Sample.codec height db').1
      = match migrated_txs Sample.codec
                (entries_from (byID (current Sample.legacy)) [])
                (PutUint64 height) with
        | [] => Err ErrNotFound
        | txs => Ok txs
        end.
Proof.
  apply (GetByHeight_after_fresh_migration Sample.ID Sample.codec).
  - intros txs b [= <-]. reflexivity.
  - intros txs. eexists. reflexivity.
  - reflexivity.
  - vm_compute. reflexivity.
  - vm_compute. reflexivity.
  - exact Sample_legacy_records.
Defined.

Lemma GetByTxID_truncated_record_witness :
  ∃ h, record_height (PutUint64 1 ++ [Byte.x00]) = Some h ∧
    (GetByTxID Sample.codec (Sample.ID Sample.A) Sample2.shortRecord).1
    = match UnmarshalTx Sample.codec [] with
      | inr tx => Ok (tx, h)
      | inl msg => Err (ErrCodec msg)
      end.
Proof.
  apply (GetByTxID_truncated_record Sample.codec (Sample.ID Sample.A)
           (PutUint64 1 ++ [Byte.x00]) Sample2.shortRecord).
  - reflexivity.
  - vm_compute. reflexivity.
  - simpl. lia.
Defined.

(** * The scan and the two decoders *)

Section ScanProperties.

Context {Tx : Type}.
Variable ID : Tx → bytes.
Variable codec : codec_Manager Tx.

Lemma indexEntry_ext (it it2 : Iterator) (pending : Z) :
  it_cur it = it_cur it2 → it_err it = it_err it2 →
  indexEntry ID codec it pending = indexEntry ID codec it2 pending.
Proof.
  intros Hc He. unfold indexEntry, iter_Error, iter_Value.
  rewrite Hc, He. reflexivity.
Qed.

(** One run of the body of the loop that returns no error, on a store
    that does not fail: the counter it returns and the store it leaves. *)
Lemma indexEntry_fault_free_Ok (it : Iterator) (pending pending1 : Z)
    (db db1 : versiondb) (kv : bytes * bytes) :
  it_cur it = Some kv →
  faults db = [] →
  indexEntry ID codec it pending db = (Ok pending1, db1) →
  ∃ tx b,
    UnmarshalTx codec (drop (LongLen + IntLen) kv.2) = inr tx ∧
    pending1 = spec_counter_after pending kv ∧
    let indexed :=
      space_put acceptedAtomicTxByHeightDB (take LongLen kv.2) b (current db) in
    db1 = if decide (pending + entry_payload_len kv > commitSizeCap)
          then {| current := space_put rootDB maxIndexedHeightKey (ID tx) indexed;
                  committed := space_put rootDB maxIndexedHeightKey (ID tx) indexed;
                  faults := [] |}
          else {| current := indexed; committed := committed db; faults := [] |}.
Proof.
  intros Hcur Hf H. unfold indexEntry in H.
  destruct (iter_Error it); [discriminate|].
  unfold iter_Value in H. rewrite Hcur in H.
  apply bind_Ok in H as (heightBytes & db2 & Hs1 & H).
  unfold slice_to in Hs1. destruct (decide _); [|discriminate].
  injection Hs1 as <- <-.
  apply bind_Ok in H as (txBytes & db3 & Hs2 & H).
  unfold slice_from in Hs2. destruct (decide _); [|discriminate].
  injection Hs2 as <- <-.
  apply bind_Ok in H as (tx & db4 & Hx & H).
  apply codec_call_Ok in Hx as [Hx ->].
  apply bind_Ok in H as ([] & db5 & Hadd & H).
  pose proof Hadd as Hadd'.
  apply addTxToHeightIndex_Ok in Hadd' as (txs & b & Hb & Hm & _ & _).
  rewrite (addTxToHeightIndex_fault_free ID codec _ _ _ _ _ Hf Hb Hm) in Hadd.
  injection Hadd as <-.
  exists tx, b. split; [exact Hx|].
  unfold spec_counter_after, entry_payload_len. cbn zeta.
  destruct (decide _).
  - rewrite (bind_eq _ _ _ _ _
               (Put_fault_free _ _ _ _ (eq_refl : faults (mkDB _ _ []) = []))) in H.
    rewrite (bind_eq _ _ _ _ _
               (Commit_fault_free _ (eq_refl : faults (mkDB _ _ []) = []))) in H.
    injection H as <- <-. done.
  - injection H as <- <-. done.
Qed.

Lemma migrate_checkpoints_aux (es : list (bytes * bytes)) :
  ∀ (it it' : Iterator) (pending : Z) (db db' : versiondb),
  it_rest it = es →
  it_err it = None →
  faults db = [] →
  migrate ID codec it pending db = (Ok it', db') →
  match spec_last_checkpoint es pending with
  | None =>
      committed db' = committed db ∧ root (current db') = root (current db)
  | Some k =>
      ∃ kv tx itk dbk,
        last (take k es) = Some kv ∧
        UnmarshalTx codec (drop (LongLen + IntLen) kv.2) = inr tx ∧
        (∀ c, migrate ID codec
                {| it_rest := take k es; it_cur := c; it_err := None |}
                pending db = (Ok itk, dbk)) ∧
        committed db' = current dbk ∧
        marker (current dbk) = Some (ID tx) ∧
        marker (current db') = Some (ID tx)
  end.
Proof.
  induction es as [|kv es IH]; intros it it' pending db db' Hrest Herr Hf Hm;
    rewrite migrate_turn in Hm; unfold iter_Next in Hm;
    rewrite Herr, (tick_fault_free db Hf), Hrest in Hm.
  - injection Hm as <- <-. done.
  - set (it1 := {| it_rest := es; it_cur := Some kv; it_err := None |}) in *.
    destruct (indexEntry ID codec it1 pending db) as [[pending1|e|] db1] eqn:Hstep;
      try discriminate.
    destruct (indexEntry_fault_free_Ok it1 pending pending1 db db1 kv eq_refl Hf Hstep)
      as (tx & b & Hx & -> & Hdb1).
    cbn zeta in Hdb1.
    assert (Hf1 : faults db1 = []) by (rewrite Hdb1; by destruct (decide _)).
    specialize (IH it1 it' _ db1 db' eq_refl eq_refl Hf1 Hm).
    assert (Hturn : ∀ rest c,
              migrate ID codec
                {| it_rest := kv :: rest; it_cur := c; it_err := None |} pending db
              = migrate ID codec
                  {| it_rest := rest; it_cur := Some kv; it_err := None |}
                  (spec_counter_after pending kv) db1).
    { intros rest c. rewrite migrate_turn. unfold iter_Next.
      cbn [it_err it_rest]. rewrite (tick_fault_free db Hf).
      rewrite (indexEntry_ext
                 {| it_rest := rest; it_cur := Some kv; it_err := None |}
                 it1 pending eq_refl eq_refl), Hstep.
      reflexivity. }
    cbn [spec_last_checkpoint].
    destruct (spec_last_checkpoint es (spec_counter_after pending kv)) as [k|].
    + destruct IH as (kv' & tx' & itk & dbk & Hlast & Hx' & Hpre & Hcm & Hmk & Hmk').
      exists kv', tx', itk, dbk. split; [|split; [done|split; [|done]]].
      * cbn [take]. rewrite last_cons, Hlast. reflexivity.
      * intros c. cbn [take]. rewrite Hturn. apply Hpre.
    + destruct IH as [Hcm Hr]. destruct (decide _) as [Hover|Hunder].
      * exists kv, tx, {| it_rest := []; it_cur := None; it_err := None |}, db1.
        split; [reflexivity|]. split; [exact Hx|]. split; [|split; [|split]].
        -- intros c. cbn [take]. rewrite Hturn, migrate_turn. unfold iter_Next.
           cbn [it_err it_rest]. rewrite (tick_fault_free db1 Hf1). reflexivity.
        -- rewrite Hcm, Hdb1. reflexivity.
        -- rewrite Hdb1. apply marker_space_put.
        -- unfold marker. rewrite Hr, Hdb1. apply lookup_insert_eq.
      * rewrite Hcm, Hr, Hdb1. done.
Qed.

(** C9 (migration checkpointing): a scan of the by-ID space that returns
    no error, on a store that does not fail, takes its checkpoints where
    the counter of the specification says, the counter growing by the
    payload of each entry processed and starting again from zero after a
    checkpoint, the cap being 10 MiB.  If the counter never exceeds the
    cap, nothing is committed and the progress marker is left alone.
    Otherwise, at the last entry at which it does, the progress marker
    was set to the identifier of the transaction of that entry and the
    store was committed: the committed content is what the scan of the
    entries up to that one leaves staged, and the marker is still that
    identifier when the scan ends. *)
Theorem migrate_checkpoints (it it' : Iterator) (pending : Z) (db db' : versiondb) :
  it_err it = None →
  faults db = [] →
  migrate ID codec it pending db = (Ok it', db') →
  commitSizeCap = 10 * 1024 * 1024 ∧
  match spec_last_checkpoint (it_rest it) pending with
  | None =>
      committed db' = committed db ∧ marker (current db') = marker (current db)
  | Some k =>
      ∃ kv tx itk dbk,
        last (take k (it_rest it)) = Some kv ∧
        UnmarshalTx codec (drop (LongLen + IntLen) kv.2) = inr tx ∧
        migrate ID codec
          {| it_rest := take k (it_rest it); it_cur := it_cur it; it_err := None |}
          pending db = (Ok itk, dbk) ∧
        committed db' = current dbk ∧
        marker (current dbk) = Some (ID tx) ∧
        marker (current db') = Some (ID tx)
  end.
Proof.
  intros Herr Hf Hm. split; [reflexivity|].
  pose proof (migrate_checkpoints_aux (it_rest it) it it' pending db db'
                eq_refl Herr Hf Hm) as H.
  destruct (spec_last_checkpoint (it_rest it) pending) as [k|].
  - destruct H as (kv & tx & itk & dbk & Hlast & Hx & Hpre & Hrest).
    exists kv, tx, itk, dbk. split; [done|]. split; [done|]. split; [apply Hpre|done].
  - destruct H as [Hc Hr]. unfold marker. by rewrite Hr.
Qed.

Lemma Uint64_app (heightBytes rest : bytes) :
  length heightBytes = LongLen → Uint64 (heightBytes ++ rest) = Uint64 heightBytes.
Proof.
  unfold LongLen. intros Hlen.
  do 8 (destruct heightBytes as [|? heightBytes]; [discriminate|]).
  destruct heightBytes; [reflexivity|discriminate].
Qed.

(** C10 (decoder agreement): for the by-ID record that [indexTxByID]
    stores for a transaction whose serialization fits the 4-byte length
    prefix, [GetByTxID], which unpacks the record, and the body of the
    migration loop, which slices it, hand the same bytes to the codec,
    the serialization of the transaction: whatever the codec makes of
    these bytes decides both.  If it refuses them, both return its
    error; if it decodes them to a transaction, [GetByTxID] returns that
    transaction with the height of the record, and the migration, on a
    store that does not fail, appends that transaction to the batch of
    the height of the record. *)
Theorem decoding_paths_agree (heightBytes : bytes) (tx : Tx) (db db' : versiondb)
    (it : Iterator) (v : bytes) (pending : Z) :
  length heightBytes = LongLen →
  (∀ b, MarshalTx codec tx = inr b → Z.of_nat (length b) < 2 ^ 32) →
  indexTxByID ID codec heightBytes tx db = (Ok tt, db') →
  faults db' = [] →
  byID (current db') !! ID tx = Some v →
  it_cur it = Some (ID tx, v) →
  it_err it = None →
  ∃ txBytes h,
    MarshalTx codec tx = inr txBytes ∧
    Uint64 heightBytes = Some h ∧
    match UnmarshalTx codec txBytes with
    | inl msg =>
        (GetByTxID codec (ID tx) db').1 = Err (ErrCodec msg) ∧
        (indexEntry ID codec it pending db').1 = Err (ErrCodec msg)
    | inr tx' =>
        (GetByTxID codec (ID tx) db').1 = Ok (tx', h) ∧
        ∀ txs b,
          existing_batch codec heightBytes db' = Some txs →
          MarshalTxs codec (txs ++ [tx']) = inr b →
          ∃ pending' db'',
            indexEntry ID codec it pending db' = (Ok pending', db'') ∧
            byHeight (current db'')
            = <[heightBytes := b]> (byHeight (current db'))
    end.
Proof.
  intros Hh Hsize H Hf Hl Hcur Herr.
  apply indexTxByID_Ok in H as (txBytes & Hm & Hc & _); [|done].
  rewrite Hc in Hl. simpl in Hl. rewrite lookup_insert_eq in Hl.
  injection Hl as <-.
  set (v := by_id_record heightBytes txBytes) in *.
  assert (Hlen : (LongLen + IntLen ≤ length v)%nat).
  { unfold v, by_id_record. rewrite !length_app, Hh, PutUint32_length. lia. }
  assert (Hdrop : drop (LongLen + IntLen) v = txBytes)
    by (by apply drop_by_id_record).
  assert (Htake : take LongLen v = heightBytes).
  { unfold v, by_id_record. rewrite <- Hh. apply take_app_length. }
  assert (Hs : scheduled db' = None) by (unfold scheduled; by rewrite Hf).
  destruct (GetByTxID_record codec (ID tx) v db' Hs) as (h & Hhv & Hget).
  { rewrite Hc. simpl. apply lookup_insert_eq. }
  { unfold LongLen, IntLen in *. lia. }
  change (record_payload v)
    with (record_payload (by_id_record heightBytes txBytes)) in Hget.
  rewrite record_payload_by_id_record in Hget by auto.
  assert (Hu : Uint64 heightBytes = Some h).
  { rewrite <- Hhv. unfold record_height. rewrite Uint64_take.
    unfold v, by_id_record. symmetry. by apply Uint64_app. }
  exists txBytes, h. split; [done|]. split; [done|].
  destruct (UnmarshalTx codec txBytes) as [msg|tx'] eqn:Hx.
  - split; [done|].
    unfold indexEntry, iter_Error, iter_Value. rewrite Herr, Hcur. cbn [snd].
    unfold slice_to, slice_from.
    rewrite (decide_True (P := (LongLen ≤ length v)%nat))
      by (unfold LongLen, IntLen in *; lia).
    rewrite (decide_True (P := (LongLen + IntLen ≤ length v)%nat)) by done.
    rewrite (bind_eq _ _ db' db' (take LongLen v) eq_refl).
    rewrite (bind_eq _ _ db' db' (drop (LongLen + IntLen) v) eq_refl).
    rewrite Hdrop. unfold ExtractAtomicTx, mbind, M_bind, codec_call.
    rewrite Hx. reflexivity.
  - split; [done|]. intros txs b Hb Hmb.
    destruct (indexEntry_fault_free ID codec it pending db' (ID tx, v) tx' txs b)
      as (pending' & db'' & Hstep & _ & _ & Hbh); try done.
    + cbn [snd]. by rewrite Hdrop.
    + cbn [snd]. by rewrite Htake.
    + exists pending', db''. split; [done|]. cbn [snd] in Hbh. by rewrite Htake in Hbh.
Qed.

End ScanProperties.

Lemma migrate_checkpoints_witness :
  let it := NewIteratorWithStart acceptedAtomicTxDB [] Sample.legacy in
  let pending := commitSizeCap - 4 in
  let db' := (migrate Sample.ID Sample.codec it pending Sample.legacy).2 in
  spec_last_checkpoint (it_rest it) pending = Some 2%nat ∧
  commitSizeCap = 10 * 1024 * 1024 ∧
  match spec_last_checkpoint (it_rest it) pending with
  | None =>
      committed db' = committed Sample.legacy ∧
      marker (current db') = marker (current Sample.legacy)
  | Some k =>
      ∃ kv tx itk dbk,
        last (take k (it_rest it)) = Some kv ∧
        UnmarshalTx Sample.codec (drop (LongLen + IntLen) kv.2) = inr tx ∧
        migrate Sample.ID Sample.codec
          {| it_rest := take k (it_rest it); it_cur := it_cur it; it_err := None |}
          pending Sample.legacy = (Ok itk, dbk) ∧
        committed db' = current dbk ∧
        marker (current dbk) = Some (Sample.ID tx) ∧
        marker (current db') = Some (Sample.ID tx)
  end.
Proof.
  intros it pending db'. split; [vm_compute; reflexivity|].
  apply (migrate_checkpoints Sample.ID Sample.codec it
           {| it_rest := []; it_cur := None; it_err := None |} pending
           Sample.legacy db').
  - reflexivity.
  - reflexivity.
  - vm_compute. reflexivity.
Defined.

Lemma decoding_paths_agree_witness :
  let db' := (indexTxByID Sample.ID Sample.codec (PutUint64 2) Sample.C
                Sample.emptyDB).2 in
  let v := by_id_record (PutUint64 2) (Sample.version ++ [Sample.C]) in
  let it := {| it_rest := []; it_cur := Some (Sample.ID Sample.C, v);
               it_err := None |} in
  ∃ txBytes h,
    MarshalTx Sample.codec Sample.C = inr txBytes ∧
    Uint64 (PutUint64 2) = Some h ∧
    match UnmarshalTx Sample.codec txBytes with
    | inl msg =>
        (GetByTxID Sample.codec (Sample.ID Sample.C) db').1 = Err (ErrCodec msg) ∧
        (indexEntry Sample.ID Sample.codec it 0 db').1 = Err (ErrCodec msg)
    | inr tx' =>
        (GetByTxID Sample.codec (Sample.ID Sample.C) db').1 = Ok (tx', h) ∧
        ∀ txs b,
          existing_batch Sample.codec (PutUint64 2) db' = Some txs →
          MarshalTxs Sample.codec (txs ++ [tx']) = inr b →
          ∃ pending' db'',
            indexEntry Sample.ID Sample.codec it 0 db' = (Ok pending', db'') ∧
            byHeight (current db'')
            = <[PutUint64 2 := b]> (byHeight (current db'))
    end.
Proof.
  intros db' v it.
  apply (decoding_paths_agree Sample.ID Sample.codec (PutUint64 2) Sample.C
           Sample.emptyDB db' it v 0).
  - reflexivity.
  - intros b [= <-]. simpl. lia.
  - vm_compute. reflexivity.
  - reflexivity.
  - vm_compute. reflexivity.
  - reflexivity.
  - reflexivity.
Defined.
